(** * MapManager: instance identifiers, base-map registry, admission, update pass

    A shallow embedding of [src/server/game/Maps/MapManager.cpp].  Unsigned
    32-bit values are integers of [Z] with the wrap-around written out; the
    dynamic bitset [_freeInstanceIds] is a [list bool]; [i_maps] is a finite
    map from map ids to object handles. *)

From Stdlib Require Import ZArith Lia Sorted.
From stdpp Require Import base option list gmap fin_maps.

Local Open Scope Z_scope.

(** ** Machine integers *)

Definition UINT32_MAX : Z := 4294967295.

(** Conversion to [uint32] (truncation modulo 2^32). *)
Definition to_uint32 (z : Z) : Z := z mod 4294967296.

(** Conversion to [size_t] / [uint64]. *)
Definition to_uint64 (z : Z) : Z := z mod 18446744073709551616.

(** ** The instance-id allocator
    ([InitInstanceIds], [RegisterInstanceId], [GenerateInstanceId],
    [FreeInstanceId]) *)

Module InstanceIds.

(** The members of [MapManager] the four functions touch, and the stop flag
    of the world that [World::StopNow] raises. *)
Record t := mk {
  _nextInstanceId : Z;
  _freeInstanceIds : list bool;
  m_stopEvent : bool
}.

(** State left by the constructor: [_nextInstanceId(0)], empty bitset. *)
Definition constructed : t := mk 0 [] false.

(** [operator[]] of the bitset is only defined inside the table. *)
Definition valid_index (i : Z) (bits : list bool) : bool :=
  bool_decide (0 ≤ i < Z.of_nat (length bits)).

(** Index of the first set bit of a list. *)
Fixpoint find_first (l : list bool) : option nat :=
  match l with
  | [] => None
  | b :: l' => if b then Some O else S <$> find_first l'
  end.

(** [dynamic_bitset::find_next(pos)]: the lowest set bit strictly above
    [pos], [None] standing for [npos]. *)
Definition find_next (l : list bool) (pos : nat) : option nat :=
  (λ i, (pos + 1 + i)%nat) <$> find_first (drop (S pos) l).

(** [InitInstanceIds]; [queryResult] is the value of
    [SELECT IFNULL(MAX(id), 0) FROM instance], [None] when the query gives no
    result.  [resize(n, true)] keeps the bits already there and pads with
    [true]. *)
Definition InitInstanceIds (queryResult : option Z) (s : t) : option t :=
  let next := 1 in
  let n := match queryResult with
           | Some maxId => to_uint64 (maxId + 2)
           | None => next + 1
           end in
  let bits := resize (Z.to_nat n) true (_freeInstanceIds s) in
  if valid_index 0 bits
  then Some (mk next (<[O := false]> bits) (m_stopEvent s))
  else None.

(** [RegisterInstanceId]; [None] when [instanceId] lies outside the table,
    where [operator[]] is undefined. *)
Definition RegisterInstanceId (instanceId : Z) (s : t) : option t :=
  if valid_index instanceId (_freeInstanceIds s) then
    Some (mk (if _nextInstanceId s =? instanceId
              then to_uint32 (_nextInstanceId s + 1)
              else _nextInstanceId s)
             (<[Z.to_nat instanceId := false]> (_freeInstanceIds s))
             (m_stopEvent s))
  else None.

(** [GenerateInstanceId]: the identifier returned and the new state; [None]
    when the [ASSERT] fails.  In the overflow branch [World::StopNow] raises
    the stop flag and the cursor itself is returned. *)
Definition GenerateInstanceId (s : t) : option (Z * t) :=
  if _nextInstanceId s =? UINT32_MAX then
    Some (_nextInstanceId s, mk (_nextInstanceId s) (_freeInstanceIds s) true)
  else
    let newInstanceId := _nextInstanceId s in
    if valid_index newInstanceId (_freeInstanceIds s) then
      let bits := <[Z.to_nat newInstanceId := false]> (_freeInstanceIds s) in
      match find_next bits (Z.to_nat (_nextInstanceId s)) with
      | None =>
          Some (newInstanceId,
                mk (to_uint32 (Z.of_nat (length bits))) (bits ++ [true])
                   (m_stopEvent s))
      | Some nextFreedId =>
          Some (newInstanceId,
                mk (to_uint32 (Z.of_nat nextFreedId)) bits (m_stopEvent s))
      end
    else None.

(** [FreeInstanceId]; [None] when [instanceId] lies outside the table. *)
Definition FreeInstanceId (instanceId : Z) (s : t) : option t :=
  if valid_index instanceId (_freeInstanceIds s) then
    Some (mk (Z.min instanceId (_nextInstanceId s))
             (<[Z.to_nat instanceId := true]> (_freeInstanceIds s))
             (m_stopEvent s))
  else None.

(** Slot [i] of the table is marked free. *)
Definition is_free (s : t) (i : Z) : Prop :=
  0 ≤ i ∧ _freeInstanceIds s !! Z.to_nat i = Some true.

(** *** Sequences of calls *)

Inductive Op :=
| Initialize (queryResult : option Z)
| Reserve (instanceId : Z)
| Allocate
| Release (instanceId : Z).

(** One call; the second component is the identifier an [Allocate]
    returned. *)
Definition step (op : Op) (s : t) : option (t * list Z) :=
  match op with
  | Initialize q => s' ← InitInstanceIds q s; Some (s', [])
  | Reserve i => s' ← RegisterInstanceId i s; Some (s', [])
  | Allocate => '(i, s') ← GenerateInstanceId s; Some (s', [i])
  | Release i => s' ← FreeInstanceId i s; Some (s', [])
  end.

(** Runs the calls in order and collects what the [Allocate] calls returned,
    oldest first. *)
Fixpoint run (ops : list Op) (s : t) : option (t * list Z) :=
  match ops with
  | [] => Some (s, [])
  | op :: ops' =>
      '(s1, r1) ← step op s;
      '(s2, r2) ← run ops' s1;
      Some (s2, r1 ++ r2)
  end.

(** [n] successive calls of [GenerateInstanceId]. *)
Fixpoint alloc_n (n : nat) (s : t) : option (list Z * t) :=
  match n with
  | O => Some ([], s)
  | S n' =>
      '(i, s1) ← GenerateInstanceId s;
      '(r, s2) ← alloc_n n' s1;
      Some (i :: r, s2)
  end.

(** The allocator at the end of start-up: [InitInstanceIds] on the fresh
    manager, then [RegisterInstanceId] on the identifiers in use, pulled in
    ascending order and not above the highest one the table was sized for;
    the second argument is the last identifier registered. *)
Inductive started : t → Z → Prop :=
| started_init q s :
    (∀ maxId, q = Some maxId → 0 ≤ maxId ∧ maxId + 2 < 18446744073709551616) →
    InitInstanceIds q constructed = Some s →
    started s 0
| started_register s last i s' :
    started s last →
    last < i < UINT32_MAX →
    i + 1 < Z.of_nat (length (_freeInstanceIds s)) →
    RegisterInstanceId i s = Some s' →
    started s' i.

(** States reached after start-up by [Allocate] and by [Release] of
    identifiers that [Allocate] returned before; the list is the history of
    returned identifiers. *)
Inductive reachable : t → list Z → Prop :=
| reach_start s last :
    started s last →
    reachable s []
| reach_alloc s h i s' :
    reachable s h →
    GenerateInstanceId s = Some (i, s') →
    reachable s' (i :: h)
| reach_release s h x s' :
    reachable s h →
    x ∈ h →
    FreeInstanceId x s = Some s' →
    reachable s' h.

(** The same, with the two restrictions of the cursor invariant: no
    [Allocate] runs into the overflow branch and [Release] is only given an
    identifier that is not free at that time. *)
Inductive reachable_strict : t → list Z → Prop :=
| sreach_start s last :
    started s last →
    reachable_strict s []
| sreach_alloc s h i s' :
    reachable_strict s h →
    _nextInstanceId s ≠ UINT32_MAX →
    GenerateInstanceId s = Some (i, s') →
    reachable_strict s' (i :: h)
| sreach_release s h x s' :
    reachable_strict s h →
    x ∈ h →
    _freeInstanceIds s !! Z.to_nat x = Some false →
    FreeInstanceId x s = Some s' →
    reachable_strict s' h.

(** Arguments under which [Allocate] is shown never to return 0. *)
Definition op_ok (op : Op) : Prop :=
  match op with
  | Initialize _ => True
  | Reserve i => 0 ≤ i < UINT32_MAX
  | Allocate => True
  | Release i => 0 < i ≤ UINT32_MAX
  end.

(** What every sequence of admissible calls keeps: the cursor is a nonzero
    [uint32] and the slot of the largest [uint32], when the table has it, is
    not marked used. *)
Definition cursor_nonzero (s : t) : Prop :=
  1 ≤ _nextInstanceId s ≤ UINT32_MAX ∧
  ∀ j : nat, Z.of_nat j = UINT32_MAX → _freeInstanceIds s !! j ≠ Some false.

(** The cursor invariant: the cursor is the least free index of the table. *)
Definition cursor_least_free (s : t) : Prop :=
  _freeInstanceIds s !! Z.to_nat (_nextInstanceId s) = Some true ∧
  ∀ j : nat, Z.of_nat j < _nextInstanceId s → _freeInstanceIds s !! j = Some false.

(** The table after [m] identifiers were handed out in a row. *)
Definition fresh_shape (m j : nat) (s : t) : Prop :=
  _nextInstanceId s = Z.of_nat m ∧
  _freeInstanceIds s = replicate m false ++ replicate (S j) true.

(** Identifiers in use: those marked used when start-up ends (the ones
    registered from the database), then every identifier [Allocate] returns
    outside the overflow branch, until it is released. *)
Inductive outstanding : t → list Z → Prop :=
| out_start s last l :
    started s last →
    (∀ x, x ∈ l → 0 < x ∧ _freeInstanceIds s !! Z.to_nat x = Some false) →
    outstanding s l
| out_alloc s l i s' :
    outstanding s l →
    _nextInstanceId s ≠ UINT32_MAX →
    GenerateInstanceId s = Some (i, s') →
    outstanding s' (i :: l)
| out_release s l x s' :
    outstanding s l →
    x ∈ l →
    FreeInstanceId x s = Some s' →
    outstanding s' (filter (λ y, y ≠ x) l).

End InstanceIds.

(** ** Static data and collaborators *)

(** A row of [sMapStore].  The three predicates of [MapEntry] the manager
    calls ([Instanceable], [IsDungeon], [IsRaid]) and [Expansion] are kept as
    fields. *)
Record MapEntry := {
  ID : Z;
  ParentMapID : Z;
  CosmeticParentMapID : Z;
  Instanceable : bool;
  IsDungeon : bool;
  IsRaid : bool;
  Expansion : Z
}.

(** Handle of a live [Map] object: its position in the store of objects. *)
Abbreviation addr := nat.

(** A live [Map] ([MapInstanced] when [map_Instanceable]), with what the
    manager does to it: terrain discovery, attached child terrain maps and
    the two loads of persistent state. *)
Record Map := {
  GetId : Z;
  map_Instanceable : bool;
  m_gridExpiry : Z;
  m_childTerrainMaps : list addr;
  gridMapFilesDiscovered : bool;
  respawnTimesLoaded : bool;
  corpseDataLoaded : bool
}.

(** Modelled from the spec: [IntervalTimer] (declared in [Timer.h], outside
    the sources) accumulates elapsed time and has passed once the accumulated
    time reaches the configured threshold. *)
Module IntervalTimer.
Record t := mk { _interval : Z; _current : Z }.
Definition Update (diff : Z) (tm : t) : t :=
  let c := _current tm + diff in
  mk (_interval tm) (if c <? 0 then 0 else c).
Definition Passed (tm : t) : bool := _interval tm <=? _current tm.
Definition SetCurrent (c : Z) (tm : t) : t := mk (_interval tm) c.
Definition GetCurrent (tm : t) : Z := _current tm.
Definition SetInterval (i : Z) (tm : t) : t := mk i (_current tm).
End IntervalTimer.

(** Outcome of the admission check.  The enumeration is declared in [Map.h];
    the manager names the first eight values, [CANNOT_ENTER_OTHER] stands for
    any further nonzero value a bound map may answer with. *)
Inductive EnterState :=
| CAN_ENTER
| CANNOT_ENTER_NO_ENTRY
| CANNOT_ENTER_UNINSTANCED_DUNGEON
| CANNOT_ENTER_DIFFICULTY_UNAVAILABLE
| CANNOT_ENTER_NOT_IN_RAID
| CANNOT_ENTER_CORPSE_IN_DIFFERENT_INSTANCE
| CANNOT_ENTER_TOO_MANY_INSTANCES
| CANNOT_ENTER_UNSPECIFIED_REASON
| CANNOT_ENTER_OTHER (code : Z).

(** Truth value of an [EnterState] in a condition: everything but
    [CAN_ENTER] (which is 0). *)
Definition is_denial (e : EnterState) : bool :=
  match e with CAN_ENTER => false | _ => true end.

Record InstanceTemplate := { Parent : Z }.
Record InstanceSave := { GetInstanceId : Z }.
Record InstanceGroupBind := { save : option InstanceSave }.

Record Group := {
  isRaidGroup : bool;
  isLFGGroup : bool;
  GetBoundInstance : MapEntry → option InstanceGroupBind
}.

(** What the manager asks of a [Player]. *)
Record Player := {
  GetDifficultyID : MapEntry → Z;
  IsGameMaster : bool;
  Satisfy : option Z → Z → bool → bool;
  GetGroup : option Group;
  IsAlive : bool;
  isDead : bool;
  HasCorpse : bool;
  GetCorpseLocation_GetMapId : Z;
  GetInstanceSave : Z → option InstanceSave;
  CheckInstanceCount : Z → bool
}.

(** The services the manager consults: [sMapStore], [sObjectMgr],
    [sDB2Manager], the configuration of [sWorld], and the two functions of
    [MapInstanced] and [Map] it delegates to. *)
Record World := {
  sMapStore : gmap Z MapEntry;
  GetInstanceTemplate : Z → option InstanceTemplate;
  GetDownscaledMapDifficultyData : Z → Z → option Z;
  GetAccessRequirement : Z → Z → option Z;
  CONFIG_EXPANSION : Z;
  CONFIG_INSTANCE_IGNORE_RAID : bool;
  FindInstanceMap : addr → Z → option addr;
  CreateInstanceForPlayer : addr → Z → Player → Z → option addr;
  CannotEnter : addr → Player → EnterState
}.

Definition LookupEntry (w : World) (id : Z) : option MapEntry := sMapStore w !! id.

(** [AssertEntry] aborts on a missing row: [None]. *)
Definition AssertEntry (w : World) (id : Z) : option MapEntry := sMapStore w !! id.

(** ** The registry of base maps and the update pass *)

Module Maps.

Record t := mk {
  i_maps : gmap Z addr;
  objects : list Map;
  _parentMapData : gmap Z (list Z);
  i_gridCleanUpDelay : Z;
  i_timer : IntervalTimer.t;
  m_updater_activated : bool
}.

(** The manager after its constructor, with the two configured
    intervals. *)
Definition constructed (gridClean mapUpdate : Z) : t :=
  mk ∅ [] ∅ gridClean (IntervalTimer.SetInterval mapUpdate (IntervalTimer.mk 0 0))
     false.

(** [Initialize]: the updater is activated when threads are configured. *)
Definition Initialize (num_threads : Z) (st : t) : t :=
  if 0 <? num_threads
  then mk (i_maps st) (objects st) (_parentMapData st) (i_gridCleanUpDelay st)
          (i_timer st) true
  else st.

Definition set_i_maps (f : gmap Z addr → gmap Z addr) (st : t) : t :=
  mk (f (i_maps st)) (objects st) (_parentMapData st) (i_gridCleanUpDelay st)
     (i_timer st) (m_updater_activated st).

Definition set_objects (f : list Map → list Map) (st : t) : t :=
  mk (i_maps st) (f (objects st)) (_parentMapData st) (i_gridCleanUpDelay st)
     (i_timer st) (m_updater_activated st).

Definition set_parentMapData (f : gmap Z (list Z) → gmap Z (list Z)) (st : t) : t :=
  mk (i_maps st) (objects st) (f (_parentMapData st)) (i_gridCleanUpDelay st)
     (i_timer st) (m_updater_activated st).

Definition set_i_timer (f : IntervalTimer.t → IntervalTimer.t) (st : t) : t :=
  mk (i_maps st) (objects st) (_parentMapData st) (i_gridCleanUpDelay st)
     (f (i_timer st)) (m_updater_activated st).

(** [InitializeParentMapData]. *)
Definition InitializeParentMapData (mapData : gmap Z (list Z)) (st : t) : t :=
  set_parentMapData (λ _, mapData) st.

(** [FindBaseMap] (declared in the header): plain lookup in [i_maps]. *)
Definition FindBaseMap (id : Z) (st : t) : option addr := i_maps st !! id.

(** [_parentMapData[id]]: the children listed for [id]; a missing key reads
    as the empty vector. *)
Definition children_of (pmd : gmap Z (list Z)) (id : Z) : list Z :=
  default [] (pmd !! id).

(** Methods of [Map] the creation step calls. *)
Definition AddChildTerrainMap (map child : addr) (st : t) : t :=
  set_objects (alter (λ m, Build_Map (GetId m) (map_Instanceable m) (m_gridExpiry m)
                              (m_childTerrainMaps m ++ [child])
                              (gridMapFilesDiscovered m) (respawnTimesLoaded m)
                              (corpseDataLoaded m)) map) st.

Definition LoadRespawnTimes (map : addr) (st : t) : t :=
  set_objects (alter (λ m, Build_Map (GetId m) (map_Instanceable m) (m_gridExpiry m)
                              (m_childTerrainMaps m)
                              (gridMapFilesDiscovered m) true
                              (corpseDataLoaded m)) map) st.

Definition LoadCorpseData (map : addr) (st : t) : t :=
  set_objects (alter (λ m, Build_Map (GetId m) (map_Instanceable m) (m_gridExpiry m)
                              (m_childTerrainMaps m)
                              (gridMapFilesDiscovered m) (respawnTimesLoaded m)
                              true) map) st.

(** The loop over [_parentMapData[mapEntry->ID]] in [CreateBaseMap_i]:
    every child is created by [create] and attached to [map]. *)
Fixpoint attach_children (w : World) (create : MapEntry → t → option (addr * t))
    (map : addr) (children : list Z) (st : t) : option t :=
  match children with
  | [] => Some st
  | childMapId :: rest =>
      e ← AssertEntry w childMapId;
      '(child, st1) ← create e st;
      attach_children w create map rest (AddChildTerrainMap map child st1)
  end.

(** [CreateBaseMap_i].  The recursion follows the data, so it is bounded by
    [fuel]; [None] is a failed assertion or exhausted fuel.  The new object
    is the one after [DiscoverGridMapFiles]; indexing [_parentMapData] with
    [operator[]] adds the key when it is missing. *)
Fixpoint CreateBaseMap_i (w : World) (fuel : nat) (mapEntry : MapEntry) (st : t)
    : option (addr * t) :=
  match fuel with
  | O => None
  | S fuel' =>
      let map := length (objects st) in
      let obj := Build_Map (ID mapEntry) (Instanceable mapEntry)
                   (i_gridCleanUpDelay st) [] true false false in
      let st1 := set_objects (λ os, os ++ [obj]) st in
      let st2 := set_i_maps <[ID mapEntry := map]> st1 in
      let children := children_of (_parentMapData st2) (ID mapEntry) in
      let st3 := set_parentMapData <[ID mapEntry := children]> st2 in
      st4 ← attach_children w (CreateBaseMap_i w fuel') map children st3;
      Some (map,
            if Instanceable mapEntry then st4
            else LoadCorpseData map (LoadRespawnTimes map st4))
  end.

(** [CreateBaseMap]; [None] is a failed assertion ([AssertEntry],
    [ASSERT_NOTNULL]) or exhausted fuel.  The lock is not modelled: calls are
    sequential. *)
Fixpoint CreateBaseMap (w : World) (fuel : nat) (id : Z) (st : t)
    : option (addr * t) :=
  match FindBaseMap id st with
  | Some map => Some (map, st)
  | None =>
      match fuel with
      | O => None
      | S fuel' =>
          entry ← AssertEntry w id;
          if bool_decide (ParentMapID entry ≠ -1 ∨ CosmeticParentMapID entry ≠ -1)
          then
            '(_, st1) ← CreateBaseMap w fuel'
                          (to_uint32 (if bool_decide (ParentMapID entry ≠ -1)
                                      then ParentMapID entry
                                      else CosmeticParentMapID entry)) st;
            map ← FindBaseMap id st1;
            Some (map, st1)
          else CreateBaseMap_i w fuel' entry st
      end
  end.

(** [Map::Instanceable] of a registered object. *)
Definition Map_Instanceable (map : addr) (st : t) : bool :=
  from_option map_Instanceable false (objects st !! map).

(** [FindBaseNonInstanceMap]. *)
Definition FindBaseNonInstanceMap (mapId : Z) (st : t) : option addr :=
  match FindBaseMap mapId st with
  | Some map => if Map_Instanceable map st then None else Some map
  | None => None
  end.

(** [CreateMap]: the inner option is the pointer returned, [None] for
    [nullptr]. *)
Definition CreateMap (w : World) (fuel : nat) (id : Z) (player : Player)
    (loginInstanceId : Z) (st : t) : option (option addr * t) :=
  '(m, st1) ← CreateBaseMap w fuel id st;
  if Map_Instanceable m st1
  then Some (CreateInstanceForPlayer w m id player loginInstanceId, st1)
  else Some (Some m, st1).

(** [FindMap]. *)
Definition FindMap (w : World) (mapid instanceId : Z) (st : t) : option addr :=
  match FindBaseMap mapid st with
  | None => None
  | Some map =>
      if negb (Map_Instanceable map st)
      then (if instanceId =? 0 then Some map else None)
      else FindInstanceMap w map instanceId
  end.

(** What one call of [Update] makes the maps and the updater do. *)
Inductive Event :=
| MapUpdate (mapId : Z) (map : addr) (t_diff : Z)
| ScheduleUpdate (mapId : Z) (map : addr) (t_diff : Z)
| UpdaterWait
| MapDelayedUpdate (mapId : Z) (map : addr) (t_diff : Z).

(** The calls of one pass over [maps]: the primary updates (run in place,
    or handed to the updater and awaited), then the delayed updates. *)
Definition pass_events (activated : bool) (t_diff : Z) (maps : list (Z * addr))
    : list Event :=
  let primary :=
    (λ kv, if activated
           then ScheduleUpdate kv.1 kv.2 t_diff
           else MapUpdate kv.1 kv.2 t_diff) <$> maps in
  let barrier := if activated then [UpdaterWait] else [] in
  let delayed := (λ kv, MapDelayedUpdate kv.1 kv.2 t_diff) <$> maps in
  primary ++ barrier ++ delayed.

(** [Update]: the new state and the calls made, in order.  [i_maps] is
    walked in the order of [map_to_list], the same in both loops. *)
Definition Update (diff : Z) (st : t) : t * list Event :=
  let st1 := set_i_timer (IntervalTimer.Update diff) st in
  if negb (IntervalTimer.Passed (i_timer st1)) then (st1, [])
  else
    (set_i_timer (IntervalTimer.SetCurrent 0) st1,
     pass_events (m_updater_activated st1)
       (to_uint32 (IntervalTimer.GetCurrent (i_timer st1)))
       (map_to_list (i_maps st1))).

(** *** Well-formed static data and the invariant of the registry *)

(** The parent a definition declares, as [CreateBaseMap] reads it: the real
    parent if there is one, else the cosmetic one. *)
Definition declared_parent (e : MapEntry) : option Z :=
  if bool_decide (ParentMapID e ≠ -1 ∨ CosmeticParentMapID e ≠ -1)
  then Some (to_uint32 (if bool_decide (ParentMapID e ≠ -1)
                        then ParentMapID e
                        else CosmeticParentMapID e))
  else None.

(** The definitions form a forest and the parent-map data lists, for every
    map, exactly the definitions that declare it as their parent: [kids] is
    what [_parentMapData] holds, [level] the depth of a definition in its
    tree, [height] a bound on the depths. *)
Record wf_data (w : World) (kids : Z → list Z) (level : Z → nat)
    (height : nat) : Prop := {
  wf_ID : ∀ id e, sMapStore w !! id = Some e → ID e = id;
  wf_parent : ∀ id e p,
    sMapStore w !! id = Some e → declared_parent e = Some p →
    is_Some (sMapStore w !! p) ∧ id ∈ kids p;
  wf_kids : ∀ p c,
    c ∈ kids p → ∃ e, sMapStore w !! c = Some e ∧ declared_parent e = Some p;
  wf_kids_NoDup : ∀ p, NoDup (kids p);
  wf_level : ∀ p c, c ∈ kids p → (level p < level c)%nat;
  wf_height : ∀ id, (level id ≤ height)%nat
}.

(** [x] is [r] or below [r] in the forest. *)
Definition below (kids : Z → list Z) (r x : Z) : Prop :=
  rtc (λ p c, c ∈ kids p) r x.

(** Map [x] is registered with an object of handle at least [n] that
    carries its id and has, as child terrain maps and in the order of the
    parent-map data, the registered objects of its children. *)
Definition registered_from (kids : Z → list Z) (n : nat) (st : t) (x : Z) : Prop :=
  ∃ a o, i_maps st !! x = Some a ∧ (n ≤ a)%nat ∧
         objects st !! a = Some o ∧ GetId o = x ∧
         (λ c, i_maps st !! c) <$> kids x = Some <$> m_childTerrainMaps o.

(** The invariant of the registry. *)
Record registry_inv (w : World) (kids : Z → list Z) (st : t) : Prop := {
  inv_kids : ∀ id, children_of (_parentMapData st) id = kids id;
  inv_registered : ∀ x, is_Some (i_maps st !! x) → registered_from kids 0 st x;
  inv_parent : ∀ x e p,
    is_Some (i_maps st !! x) → sMapStore w !! x = Some e →
    declared_parent e = Some p → is_Some (i_maps st !! p)
}.

(** The object of map [child] is attached exactly once to the object of map
    [parent]. *)
Definition attached_once (st : t) (parent child : addr) : Prop :=
  ∃ o i, objects st !! parent = Some o ∧
         m_childTerrainMaps o !! i = Some child ∧
         ∀ j, m_childTerrainMaps o !! j = Some child → j = i.

(** What [CreateBaseMap_i] on the definition of [r] makes of [st]: the
    parent-map data reads as before, the objects that existed are untouched,
    the registry changes only at [r] and below, where every map now is
    registered with a new object, [r] with the first new handle. *)
Definition created (kids : Z → list Z) (st : t) (r : Z) (st' : t) : Prop :=
  (∀ id, children_of (_parentMapData st') id = kids id) ∧
  (∀ i, (i < length (objects st))%nat → objects st' !! i = objects st !! i) ∧
  (∀ x, below kids r x ∨ i_maps st' !! x = i_maps st !! x) ∧
  (∀ x, below kids r x → registered_from kids (length (objects st)) st' x) ∧
  i_maps st' !! r = Some (length (objects st)).

(** The state inside the loop of [CreateBaseMap_i] on [r], started in [st],
    when the children [done] have been created and attached. *)
Definition attaching (kids : Z → list Z) (st : t) (r : Z) (done : list Z)
    (s : t) : Prop :=
  (∀ id, children_of (_parentMapData s) id = kids id) ∧
  (∀ i, (i < length (objects st))%nat → objects s !! i = objects st !! i) ∧
  (∃ o, objects s !! length (objects st) = Some o ∧ GetId o = r ∧
        (λ c, i_maps s !! c) <$> done = Some <$> m_childTerrainMaps o) ∧
  i_maps s !! r = Some (length (objects st)) ∧
  (∀ x, x = r ∨ (∃ c, c ∈ done ∧ below kids c x) ∨
        i_maps s !! x = i_maps st !! x) ∧
  (∀ c x, c ∈ done → below kids c x →
          registered_from kids (S (length (objects st))) s x).

(** *** Validity, teardown, counters and runs of the update *)

(** [IsValidMAP]. *)
Definition IsValidMAP (w : World) (mapid : Z) (startUp : bool) : bool :=
  let mEntry := LookupEntry w mapid in
  if startUp then match mEntry with Some _ => true | None => false end
  else
    match mEntry with
    | Some e =>
        negb (IsDungeon e) ||
        match GetInstanceTemplate w mapid with Some _ => true | None => false end
    | None => false
    end.

(** What [UnloadAll] makes the maps, the updater and the state machine do. *)
Inductive TeardownEvent :=
| MapUnloadAll (mapId : Z) (map : addr)
| MapDelete (mapId : Z) (map : addr)
| UpdaterDeactivate
| DeleteStateMachine.

(** [UnloadAll]: the new state and the calls made, in order.  The deleted
    objects stay in the store of objects, unreferenced; their handles are
    not handed out again. *)
Definition UnloadAll (st : t) : t * list TeardownEvent :=
  let maps := map_to_list (i_maps st) in
  (mk ∅ (objects st) (_parentMapData st) (i_gridCleanUpDelay st) (i_timer st)
      false,
   ((λ kv, MapUnloadAll kv.1 kv.2) <$> maps) ++
   ((λ kv, MapDelete kv.1 kv.2) <$> maps) ++
   (if m_updater_activated st then [UpdaterDeactivate] else []) ++
   [DeleteStateMachine]).

(** What the counters ask of [MapInstanced] and of the instances: the
    instances of a base map with their instance ids, whether an instance is
    a dungeon, and how many players it holds. *)
Record Instances := {
  GetInstancedMaps : addr → list (Z * addr);
  instance_IsDungeon : addr → bool;
  GetPlayers_getSize : addr → Z
}.

(** [GetNumInstances]; the counter is a [uint32]. *)
Definition GetNumInstances (ins : Instances) (st : t) : Z :=
  foldl (λ ret itr,
           if negb (Map_Instanceable itr.2 st) then ret
           else foldl (λ ret mitr,
                         if instance_IsDungeon ins mitr.2
                         then to_uint32 (ret + 1) else ret)
                      ret (GetInstancedMaps ins itr.2))
        0 (map_to_list (i_maps st)).

(** [GetNumPlayersInInstances]. *)
Definition GetNumPlayersInInstances (ins : Instances) (st : t) : Z :=
  foldl (λ ret itr,
           if negb (Map_Instanceable itr.2 st) then ret
           else foldl (λ ret mitr,
                         if instance_IsDungeon ins mitr.2
                         then to_uint32 (ret + GetPlayers_getSize ins mitr.2)
                         else ret)
                      ret (GetInstancedMaps ins itr.2))
        0 (map_to_list (i_maps st)).

(** The dungeon instances the counters walk over, in the order of the
    walk. *)
Definition dungeon_instances (ins : Instances) (st : t) : list addr :=
  mjoin ((λ itr, if negb (Map_Instanceable itr.2 st) then []
                 else filter (λ i, instance_IsDungeon ins i = true)
                        ((GetInstancedMaps ins itr.2).*2))
         <$> map_to_list (i_maps st)).

(** Successive calls of [Update] with the elapsed times [diffs]. *)
Fixpoint Updates (diffs : list Z) (st : t) : t * list Event :=
  match diffs with
  | [] => (st, [])
  | diff :: rest =>
      let r := Update diff st in
      let r' := Updates rest r.1 in
      (r'.1, r.2 ++ r'.2)
  end.

(** The elapsed time an event hands to the primary update of map [id], and
    to its delayed update. *)
Definition primary_time (id : Z) (ev : Event) : Z :=
  match ev with
  | MapUpdate i _ t_diff | ScheduleUpdate i _ t_diff =>
      if i =? id then t_diff else 0
  | _ => 0
  end.

Definition delayed_time (id : Z) (ev : Event) : Z :=
  match ev with
  | MapDelayedUpdate i _ t_diff => if i =? id then t_diff else 0
  | _ => 0
  end.

Definition sum_list (l : list Z) : Z := foldr Z.add 0 l.

(** [st'] has everything [st] has: the objects of [st] unchanged, every map
    registered in [st] still registered, interval timer, updater and
    clean-up delay as they were. *)
Definition extends (st st' : t) : Prop :=
  (∀ i, (i < length (objects st))%nat → objects st' !! i = objects st !! i) ∧
  (length (objects st) ≤ length (objects st'))%nat ∧
  (∀ x, is_Some (i_maps st !! x) → is_Some (i_maps st' !! x)) ∧
  i_gridCleanUpDelay st' = i_gridCleanUpDelay st ∧
  i_timer st' = i_timer st ∧
  m_updater_activated st' = m_updater_activated st.

(** The object [o] is what [CreateBaseMap_i] builds for the definition [e]:
    it carries the id, is instance-capable exactly when the definition is
    instanceable, has its terrain discovered, and has respawn times and
    corpses loaded exactly when the definition is not instanceable. *)
Definition built_from (e : MapEntry) (o : Map) : Prop :=
  GetId o = ID e ∧
  map_Instanceable o = Instanceable e ∧
  gridMapFilesDiscovered o = true ∧
  respawnTimesLoaded o = negb (Instanceable e) ∧
  corpseDataLoaded o = negb (Instanceable e).

(** Every object of the manager was built for a definition of the store. *)
Definition all_built (w : World) (st : t) : Prop :=
  ∀ i o, objects st !! i = Some o →
         ∃ k e, sMapStore w !! k = Some e ∧ built_from e o.

(** Successive calls of [CreateBaseMap] on the ids of the list. *)
Fixpoint CreateBaseMaps (w : World) (fuel : nat) (ids : list Z) (st : t)
    : option (list addr * t) :=
  match ids with
  | [] => Some ([], st)
  | id :: rest =>
      '(map, st1) ← CreateBaseMap w fuel id st;
      '(maps, st2) ← CreateBaseMaps w fuel rest st1;
      Some (map :: maps, st2)
  end.

End Maps.

(** ** Admission: [PlayerCannotEnter] *)

Module Admission.

(** The [do ... while (corpseMap)] loop: the value of [corpseMap] when the
    loop is left, [None] when [fuel] rounds do not leave it. *)
Fixpoint corpse_walk (w : World) (fuel : nat) (mapid corpseMap : Z) : option Z :=
  match fuel with
  | O => None
  | S fuel' =>
      if corpseMap =? mapid then Some corpseMap
      else
        let corpseMap' := match GetInstanceTemplate w corpseMap with
                          | Some corpseInstance => Parent corpseInstance
                          | None => 0
                          end in
        if corpseMap' =? 0 then Some corpseMap'
        else corpse_walk w fuel' mapid corpseMap'
  end.

(** The block on the instance the group is bound to: the denial it returns,
    if any. *)
Definition bound_instance_check (w : World) (st : Maps.t) (mapid : Z)
    (entry : MapEntry) (player : Player) (loginCheck : bool) : option EnterState :=
  match GetGroup player with
  | Some group =>
      if negb loginCheck then
        match GetBoundInstance group entry with
        | Some boundInstance =>
            match save boundInstance with
            | Some sv =>
                match Maps.FindMap w mapid (GetInstanceId sv) st with
                | Some boundMap =>
                    let denyReason := CannotEnter w boundMap player in
                    if is_denial denyReason then Some denyReason else None
                | None => None
                end
            | None => None
            end
        | None => None
        end
      else None
  | None => None
  end.

(** The block on the number of instances entered per hour. *)
Definition instance_count_check (mapid : Z) (entry : MapEntry) (player : Player)
    : option EnterState :=
  if IsDungeon entry &&
     match GetGroup player with
     | None => true
     | Some group => negb (isLFGGroup group)
     end
  then
    let instanceIdToCheck := match GetInstanceSave player mapid with
                             | Some sv => GetInstanceId sv
                             | None => 0
                             end in
    if negb (CheckInstanceCount player instanceIdToCheck) && negb (isDead player)
    then Some CANNOT_ENTER_TOO_MANY_INSTANCES
    else None
  else None.

(** Everything after the block on dead players. *)
Definition after_corpse_check (w : World) (st : Maps.t) (mapid : Z)
    (entry : MapEntry) (player : Player) (loginCheck : bool) : EnterState :=
  match bound_instance_check w st mapid entry player loginCheck with
  | Some denyReason => denyReason
  | None =>
      match instance_count_check mapid entry player with
      | Some denyReason => denyReason
      | None => CAN_ENTER
      end
  end.

(** The raid-group condition: [true] when it denies entry. *)
Definition not_in_raid (w : World) (entry : MapEntry) (player : Player) : bool :=
  (IsRaid entry && (CONFIG_EXPANSION w <=? Expansion entry)) &&
  (match GetGroup player with
   | None => true
   | Some group => negb (isRaidGroup group)
   end && negb (CONFIG_INSTANCE_IGNORE_RAID w)).

(** [PlayerCannotEnter]; [None] when the corpse loop does not end within
    [fuel] rounds. *)
Definition PlayerCannotEnter (w : World) (st : Maps.t) (fuel : nat) (mapid : Z)
    (player : Player) (loginCheck : bool) : option EnterState :=
  match LookupEntry w mapid with
  | None => Some CANNOT_ENTER_NO_ENTRY
  | Some entry =>
      if negb (IsDungeon entry) then Some CAN_ENTER
      else
        match GetInstanceTemplate w mapid with
        | None => Some CANNOT_ENTER_UNINSTANCED_DUNGEON
        | Some instance =>
            let requestedDifficulty := GetDifficultyID player entry in
            match GetDownscaledMapDifficultyData w mapid requestedDifficulty with
            | None => Some CANNOT_ENTER_DIFFICULTY_UNAVAILABLE
            | Some targetDifficulty =>
                if IsGameMaster player then Some CAN_ENTER
                else if negb (Satisfy player
                                (GetAccessRequirement w mapid targetDifficulty)
                                mapid true)
                then Some CANNOT_ENTER_UNSPECIFIED_REASON
                else if not_in_raid w entry player
                then Some CANNOT_ENTER_NOT_IN_RAID
                else if negb (IsAlive player) then
                  if HasCorpse player then
                    corpseMap ← corpse_walk w fuel mapid
                                   (GetCorpseLocation_GetMapId player);
                    if corpseMap =? 0
                    then Some CANNOT_ENTER_CORPSE_IN_DIFFERENT_INSTANCE
                    else Some (after_corpse_check w st mapid entry player loginCheck)
                  else Some (after_corpse_check w st mapid entry player loginCheck)
                else Some (after_corpse_check w st mapid entry player loginCheck)
            end
        end
  end.

(** The chain of the corpse: it starts at the map of the corpse and steps to
    the parent named by the instance template of the current map; parent 0
    means that there is none and ends the chain. *)
Inductive in_corpse_chain (w : World) : Z → Z → Prop :=
| chain_here m : in_corpse_chain w m m
| chain_up m tmpl x :
    GetInstanceTemplate w m = Some tmpl →
    Parent tmpl ≠ 0 →
    in_corpse_chain w (Parent tmpl) x →
    in_corpse_chain w m x.

(** The conditions under which an evaluation passes the first seven rules
    and arrives at the block on dead players. *)
Definition reaches_corpse_check (w : World) (mapid : Z) (player : Player)
    (entry : MapEntry) : Prop :=
  LookupEntry w mapid = Some entry ∧
  IsDungeon entry = true ∧
  is_Some (GetInstanceTemplate w mapid) ∧
  (∃ targetDifficulty,
     GetDownscaledMapDifficultyData w mapid (GetDifficultyID player entry)
       = Some targetDifficulty ∧
     Satisfy player (GetAccessRequirement w mapid targetDifficulty) mapid true
       = true) ∧
  IsGameMaster player = false ∧
  not_in_raid w entry player = false.

End Admission.

(** ** Sample data for concrete evaluations *)

Module Samples.

Definition dungeon_entry (id : Z) : MapEntry :=
  Build_MapEntry id (-1) (-1) true true false 0.

(** A world with the dungeons 0, 33 and 34, each with an instance template;
    the parent of 34 is 33, the other two have none. *)
Definition sample_world : World :=
  Build_World
    (<[0 := dungeon_entry 0]> (<[33 := dungeon_entry 33]>
       (<[34 := dungeon_entry 34]> ∅)))
    (λ id, if id =? 0 then Some (Build_InstanceTemplate 0)
           else if id =? 34 then Some (Build_InstanceTemplate 33)
           else if id =? 33 then Some (Build_InstanceTemplate 0)
           else None)
    (λ _ d, Some d)
    (λ _ _, None)
    0 false
    (λ _ _, None) (λ _ _ _ _, None) (λ _ _, CAN_ENTER).

Definition sample_maps : Maps.t := Maps.Initialize 0 (Maps.constructed 0 100).

(** A dead player with a corpse on map [corpseMap], in no group. *)
Definition ghost (corpseMap : Z) : Player :=
  Build_Player (λ _, 1) false (λ _ _ _, true) None false true true corpseMap
    (λ _, None) (λ _, true).

(** A dead game master without corpse and group, failing the access
    requirement and over the instance cap. *)
Definition dead_game_master : Player :=
  Build_Player (λ _, 1) true (λ _ _ _, false) None false true false 0
    (λ _, None) (λ _, false).

(** A dead player without corpse, over the instance cap. *)
Definition released_spirit : Player :=
  Build_Player (λ _, 1) false (λ _ _ _, true) None false true false 0
    (λ _, None) (λ _, false).

(** The definitions of the end-to-end scenario: map 1, map 2 with parent 1,
    and the instanceable map 3. *)
Definition terrain_entry (id parent : Z) (instanceable : bool) : MapEntry :=
  Build_MapEntry id parent (-1) instanceable false false 0.

Definition terrain_world : World :=
  Build_World
    (<[1 := terrain_entry 1 (-1) false]> (<[2 := terrain_entry 2 1 false]>
       (<[3 := terrain_entry 3 (-1) true]> ∅)))
    (λ _, None) (λ _ d, Some d) (λ _ _, None) 0 false
    (λ _ _, None) (λ _ _ _ _, None) (λ _ _, CAN_ENTER).

Definition terrain_mapData : gmap Z (list Z) := {[1 := [2]]}.

Definition terrain_level (id : Z) : nat := if id =? 2 then 1%nat else 0%nat.

(** The manager before the first map is created, with a threshold of 100
    and no update threads. *)
Definition terrain_maps : Maps.t :=
  Maps.InitializeParentMapData terrain_mapData
    (Maps.Initialize 0 (Maps.constructed 0 100)).

(** The manager with the maps 1 and 2 created. *)
Definition terrain_maps_created : Maps.t :=
  Maps.mk (<[1 := 0%nat]> (<[2 := 1%nat]> ∅))
    [Build_Map 1 false 0 [1%nat] true true true;
     Build_Map 2 false 0 [] true true true]
    (<[2 := []]> (<[1 := [2]]> terrain_mapData)) 0 (IntervalTimer.mk 100 0) false.

(** A world in which the instance template of map 5 names map 5 itself as
    its parent; 7 is a dungeon with an instance template and no parent. *)
Definition looping_world : World :=
  Build_World
    (<[7 := dungeon_entry 7]> ∅)
    (λ id, if id =? 5 then Some (Build_InstanceTemplate 5)
           else if id =? 7 then Some (Build_InstanceTemplate 0)
           else None)
    (λ _ d, Some d) (λ _ _, None) 0 false
    (λ _ _, None) (λ _ _ _ _, None) (λ _ _, CAN_ENTER).

(** A living player in no group, over the cap on recent instances. *)
Definition living_over_cap : Player :=
  Build_Player (λ _, 1) false (λ _ _ _, true) None true false false 0
    (λ _, None) (λ _, false).

(** A world whose only map, 9, is a raid of the active expansion. *)
Definition raid_world : World :=
  Build_World
    (<[9 := Build_MapEntry 9 (-1) (-1) true true true 0]> ∅)
    (λ id, if id =? 9 then Some (Build_InstanceTemplate 0) else None)
    (λ _ d, Some d) (λ _ _, None) 0 false
    (λ _ _, None) (λ _ _ _ _, None) (λ _ _, CAN_ENTER).

(** A world in which the maps 5 and 6 declare each other as parent. *)
Definition cyclic_world : World :=
  Build_World
    (<[5 := terrain_entry 5 6 false]> (<[6 := terrain_entry 6 5 false]> ∅))
    (λ _, None) (λ _ d, Some d) (λ _ _, None) 0 false
    (λ _ _, None) (λ _ _ _ _, None) (λ _ _, CAN_ENTER).

(** The manager with map 1 created before the parent-map data was loaded:
    map 2 is not attached to it. *)
Definition terrain_maps_unlisted : Maps.t :=
  Maps.mk (<[1 := 0%nat]> ∅) [Build_Map 1 false 0 [] true true true]
    (<[1 := []]> ∅) 0 (IntervalTimer.mk 100 0) false.

(** The manager with the instanceable map 3 created as well, and updater
    threads running. *)
Definition terrain_maps_all : Maps.t :=
  Maps.mk (<[1 := 0%nat]> (<[2 := 1%nat]> (<[3 := 2%nat]> ∅)))
    [Build_Map 1 false 0 [1%nat] true true true;
     Build_Map 2 false 0 [] true true true;
     Build_Map 3 true 0 [] true false false]
    (<[3 := []]> (<[2 := []]> (<[1 := [2]]> terrain_mapData))) 0
    (IntervalTimer.mk 100 0) true.

(** Map 3 has the instances 10 (a dungeon, two players), 11 (not a dungeon)
    and 12 (a dungeon, three players), at the handles 100, 101 and 102. *)
Definition sample_instances : Maps.Instances :=
  Maps.Build_Instances
    (λ a, if (a =? 2)%nat then [(10, 100%nat); (11, 101%nat); (12, 102%nat)]
          else [])
    (λ i, negb (i =? 101)%nat)
    (λ i, if (i =? 100)%nat then 2 else 3).

End Samples.

(** * Properties of the instance-id allocator *)

Module InstanceIdsFacts.
Import InstanceIds.

Lemma to_uint32_small z : 0 ≤ z ≤ UINT32_MAX → to_uint32 z = z.
Proof. unfold UINT32_MAX, to_uint32. intros. apply Z.mod_small. lia. Qed.

Lemma valid_index_true i bits :
  valid_index i bits = true ↔ 0 ≤ i < Z.of_nat (length bits).
Proof. unfold valid_index. by rewrite bool_decide_eq_true. Qed.

Lemma find_first_Some l i :
  find_first l = Some i →
  l !! i = Some true ∧ ∀ j, (j < i)%nat → l !! j = Some false.
Proof.
  revert i. induction l as [|b l IH]; intros i H; simpl in H; [done|].
  destruct b.
  - inversion H; subst. split; [done|]. intros; lia.
  - destruct (find_first l) as [k|] eqn:E; simpl in H; [|done].
    inversion H; subst. destruct (IH k eq_refl) as [H1 H2].
    split; [done|]. intros [|j] Hj; [done|]. simpl. apply H2. lia.
Qed.

Lemma find_first_None l j : find_first l = None → l !! j ≠ Some true.
Proof.
  revert j. induction l as [|b l IH]; intros j H; simpl in *; [done|].
  destruct b; [done|]. destruct (find_first l) eqn:E; [done|].
  destruct j; simpl; [done|]. by apply IH.
Qed.

Lemma find_next_Some l p i :
  find_next l p = Some i →
  (p < i)%nat ∧ l !! i = Some true ∧
  ∀ j, (p < j < i)%nat → l !! j = Some false.
Proof.
  unfold find_next.
  destruct (find_first (drop (S p) l)) as [k|] eqn:E; simpl; [|done].
  intros [= <-]. apply find_first_Some in E as [H1 H2].
  rewrite lookup_drop in H1. split; [lia|]. split.
  { by replace (p + 1 + k)%nat with (S p + k)%nat by lia. }
  intros j Hj. specialize (H2 (j - S p)%nat). rewrite lookup_drop in H2.
  replace (S p + (j - S p))%nat with j in H2 by lia. apply H2. lia.
Qed.

Lemma find_next_None l p j :
  find_next l p = None → (p < j)%nat → l !! j ≠ Some true.
Proof.
  unfold find_next.
  destruct (find_first (drop (S p) l)) as [k|] eqn:E; simpl; [done|].
  intros _ Hj. pose proof (find_first_None _ (j - S p)%nat E) as H.
  rewrite lookup_drop in H. by replace (S p + (j - S p))%nat with j in H by lia.
Qed.

(** A slot that is neither free nor used does not exist. *)
Lemma lookup_bool_cases (l : list bool) (j : nat) :
  (j < length l)%nat → l !! j ≠ Some true → l !! j = Some false.
Proof.
  intros Hj H. destruct (lookup_lt_is_Some_2 l j Hj) as [[] E]; congruence.
Qed.

(** What [GenerateInstanceId] does outside the overflow branch. *)
Lemma Generate_normal s i s' :
  _nextInstanceId s ≠ UINT32_MAX →
  GenerateInstanceId s = Some (i, s') →
  let bits := <[Z.to_nat (_nextInstanceId s) := false]> (_freeInstanceIds s) in
  i = _nextInstanceId s ∧
  0 ≤ i < Z.of_nat (length (_freeInstanceIds s)) ∧
  m_stopEvent s' = m_stopEvent s ∧
  ((∃ k, find_next bits (Z.to_nat i) = Some k ∧
         _nextInstanceId s' = to_uint32 (Z.of_nat k) ∧
         _freeInstanceIds s' = bits) ∨
   (find_next bits (Z.to_nat i) = None ∧
    _nextInstanceId s' = to_uint32 (Z.of_nat (length bits)) ∧
    _freeInstanceIds s' = bits ++ [true])).
Proof.
  intros Hne. unfold GenerateInstanceId.
  destruct (Z.eqb_spec (_nextInstanceId s) UINT32_MAX) as [|_]; [done|].
  destruct (valid_index _ _) eqn:Hv; [|done].
  apply valid_index_true in Hv.
  destruct (find_next _ _) as [k|] eqn:Hf; intros [= <- <-]; simpl;
    (split; [done|]); (split; [done|]); (split; [done|]).
  - left. eauto.
  - right. eauto.
Qed.

Lemma Generate_overflow s :
  _nextInstanceId s = UINT32_MAX →
  GenerateInstanceId s =
    Some (UINT32_MAX, mk UINT32_MAX (_freeInstanceIds s) true).
Proof.
  intros H. unfold GenerateInstanceId. rewrite H.
  by rewrite Z.eqb_refl.
Qed.

Lemma Generate_returns_cursor s i s' :
  GenerateInstanceId s = Some (i, s') → i = _nextInstanceId s.
Proof.
  destruct (decide (_nextInstanceId s = UINT32_MAX)) as [E|E].
  - rewrite (Generate_overflow s E). intros [= <- _]. done.
  - intros H. by apply (Generate_normal s i s' E) in H as [? _].
Qed.

Lemma Generate_length s i s' :
  GenerateInstanceId s = Some (i, s') →
  (length (_freeInstanceIds s) ≤ length (_freeInstanceIds s'))%nat.
Proof.
  destruct (decide (_nextInstanceId s = UINT32_MAX)) as [E|E].
  - rewrite (Generate_overflow s E). intros [= _ <-]. done.
  - intros H. apply (Generate_normal s i s' E) in H as (_ & _ & _ & H).
    destruct H as [(k & _ & _ & ->)|(_ & _ & ->)].
    + by rewrite length_insert.
    + rewrite length_app, length_insert. lia.
Qed.

Lemma Generate_cursor_nonzero s i s' :
  cursor_nonzero s →
  GenerateInstanceId s = Some (i, s') →
  cursor_nonzero s' ∧
  (_nextInstanceId s ≠ UINT32_MAX → _nextInstanceId s < _nextInstanceId s').
Proof.
  intros [Hn Hmax] H.
  destruct (decide (_nextInstanceId s = UINT32_MAX)) as [E|E].
  { rewrite (Generate_overflow s E) in H. injection H as <- <-.
    split; [|done]. split; simpl; [unfold UINT32_MAX; lia|done]. }
  apply (Generate_normal s i s' E) in H as (-> & Hv & _ & H).
  assert (Hother : ∀ j : nat, Z.of_nat j = UINT32_MAX →
    <[Z.to_nat (_nextInstanceId s) := false]> (_freeInstanceIds s) !! j
      ≠ Some false).
  { intros j Hj. rewrite list_lookup_insert_ne by lia. by apply Hmax. }
  destruct H as [(k & Hk & Hnext & Hbits)|(Hk & Hnext & Hbits)].
  - apply find_next_Some in Hk as (Hlt & Hkt & Hbetween).
    assert (Z.of_nat k ≤ UINT32_MAX) as Hle.
    { destruct (decide (Z.of_nat k ≤ UINT32_MAX)) as [|Hgt]; [done|].
      exfalso. apply (Hother (Z.to_nat UINT32_MAX)).
      - unfold UINT32_MAX. lia.
      - apply Hbetween. unfold UINT32_MAX in *. lia. }
    rewrite to_uint32_small in Hnext by lia.
    split; [|lia]. split; [lia|]. rewrite Hbits. done.
  - set (bits := <[_ := false]> _) in *.
    assert (Z.of_nat (length bits) ≤ UINT32_MAX) as Hle.
    { destruct (decide (Z.of_nat (length bits) ≤ UINT32_MAX)) as [|Hgt];
        [done|].
      exfalso. apply (Hother (Z.to_nat UINT32_MAX)).
      - unfold UINT32_MAX. lia.
      - apply lookup_bool_cases; [unfold UINT32_MAX in *; lia|].
        apply (find_next_None _ _ _ Hk). unfold UINT32_MAX in *. lia. }
    assert (length bits = length (_freeInstanceIds s)) as Hlen
      by apply length_insert.
    rewrite to_uint32_small in Hnext by lia.
    split; [|lia]. split; [lia|]. rewrite Hbits. intros j Hj.
    destruct (decide (j < length bits)%nat).
    + rewrite lookup_app_l by done. by apply Hother.
    + rewrite lookup_app_r by lia.
      by destruct (j - length bits)%nat as [|[|?]].
Qed.

Lemma Generate_cursor_least_free s i s' :
  cursor_nonzero s → cursor_least_free s →
  GenerateInstanceId s = Some (i, s') →
  cursor_least_free s'.
Proof.
  intros [Hn Hmax] [Hfree Hleast] H.
  destruct (decide (_nextInstanceId s = UINT32_MAX)) as [E|E].
  { rewrite (Generate_overflow s E) in H. injection H as <- <-.
    split; simpl; rewrite <- E; done. }
  pose proof (Generate_cursor_nonzero s i s' (conj Hn Hmax) H) as [[Hn' _] Hlt].
  specialize (Hlt E).
  apply (Generate_normal s i s' E) in H as (-> & Hv & _ & H).
  set (bits := <[_ := false]> _) in *.
  assert (length bits = length (_freeInstanceIds s)) as Hlen
    by apply length_insert.
  assert (Hlow : ∀ j : nat, Z.of_nat j ≤ _nextInstanceId s →
            bits !! j = Some false).
  { intros j Hj. unfold bits.
    destruct (decide (j = Z.to_nat (_nextInstanceId s))) as [->|Hne].
    - apply list_lookup_insert_eq. lia.
    - rewrite list_lookup_insert_ne by done. apply Hleast. lia. }
  destruct H as [(k & Hk & Hnext & Hbits)|(Hk & Hnext & Hbits)].
  - apply find_next_Some in Hk as (Hltk & Hkt & Hbetween).
    assert (Z.of_nat k ≤ UINT32_MAX) as Hle.
    { destruct (decide (Z.of_nat k ≤ UINT32_MAX)) as [|Hgt]; [done|].
      exfalso. apply (Hmax (Z.to_nat UINT32_MAX)).
      - unfold UINT32_MAX. lia.
      - rewrite <- (list_lookup_insert_ne (_freeInstanceIds s)
                      (Z.to_nat (_nextInstanceId s)) _ false)
          by (unfold UINT32_MAX in *; lia).
        apply Hbetween. unfold UINT32_MAX in *. lia. }
    rewrite to_uint32_small in Hnext by lia.
    unfold cursor_least_free. rewrite Hnext, Hbits. split.
    + by rewrite Nat2Z.id.
    + intros j Hj. destruct (decide (Z.of_nat j ≤ _nextInstanceId s)).
      * by apply Hlow.
      * apply Hbetween. lia.
  - unfold cursor_least_free. rewrite Hbits.
    assert (_nextInstanceId s' = Z.of_nat (length bits)) as Hnext'.
    { rewrite Hnext. apply to_uint32_small.
      destruct (decide (Z.of_nat (length bits) ≤ UINT32_MAX)) as [|Hgt];
        [lia|].
      exfalso. apply (Hmax (Z.to_nat UINT32_MAX)).
      - unfold UINT32_MAX. lia.
      - rewrite <- (list_lookup_insert_ne (_freeInstanceIds s)
                      (Z.to_nat (_nextInstanceId s)) _ false)
          by (unfold UINT32_MAX in *; lia).
        fold bits.
        apply lookup_bool_cases; [unfold UINT32_MAX in *; lia|].
        apply (find_next_None _ _ _ Hk). unfold UINT32_MAX in *. lia. }
    rewrite Hnext'. split.
    + rewrite Nat2Z.id, lookup_app_r by lia.
      by replace (length bits - length bits)%nat with O by lia.
    + intros j Hj. rewrite lookup_app_l by lia.
      destruct (decide (Z.of_nat j ≤ _nextInstanceId s)).
      * by apply Hlow.
      * apply lookup_bool_cases; [lia|].
        apply (find_next_None _ _ _ Hk). lia.
Qed.


Lemma Free_Some x s s' :
  FreeInstanceId x s = Some s' →
  0 ≤ x < Z.of_nat (length (_freeInstanceIds s)) ∧
  _nextInstanceId s' = Z.min x (_nextInstanceId s) ∧
  _freeInstanceIds s' = <[Z.to_nat x := true]> (_freeInstanceIds s).
Proof.
  unfold FreeInstanceId. destruct (valid_index _ _) eqn:Hv; [|done].
  apply valid_index_true in Hv. by intros [= <-].
Qed.

Lemma Free_is_Some x s :
  0 ≤ x < Z.of_nat (length (_freeInstanceIds s)) →
  ∃ s', FreeInstanceId x s = Some s'.
Proof.
  intros Hx. unfold FreeInstanceId.
  apply valid_index_true in Hx. rewrite Hx. eauto.
Qed.

Lemma Free_cursor_nonzero x s s' :
  cursor_nonzero s → 0 < x →
  FreeInstanceId x s = Some s' → cursor_nonzero s'.
Proof.
  intros [Hn Hmax] Hx (Hv & Hnext & Hbits)%Free_Some.
  split; [lia|]. rewrite Hbits. intros j Hj.
  destruct (decide (j = Z.to_nat x)) as [->|Hne].
  - rewrite list_lookup_insert_eq by lia. done.
  - rewrite list_lookup_insert_ne by done. by apply Hmax.
Qed.

Lemma Free_cursor_least_free x s s' :
  0 ≤ _nextInstanceId s → cursor_least_free s →
  FreeInstanceId x s = Some s' → cursor_least_free s'.
Proof.
  intros Hn [Hfree Hleast] (Hv & Hnext & Hbits)%Free_Some.
  unfold cursor_least_free. rewrite Hnext, Hbits.
  destruct (Z.min_spec x (_nextInstanceId s)) as [[Hlt ->]|[Hge ->]]; split.
  - apply list_lookup_insert_eq. lia.
  - intros j Hj. rewrite list_lookup_insert_ne by lia. apply Hleast. lia.
  - destruct (decide (x = _nextInstanceId s)) as [->|Hne].
    + apply list_lookup_insert_eq. lia.
    + rewrite list_lookup_insert_ne; [done|].
      intros Heq. apply Hne. apply lookup_lt_Some in Hfree. lia.
  - intros j Hj. rewrite list_lookup_insert_ne by lia. by apply Hleast.
Qed.

Lemma Init_fresh_ex q :
  (∀ maxId, q = Some maxId → 0 ≤ maxId ∧ maxId + 2 < 18446744073709551616) →
  ∃ s j, InitInstanceIds q constructed = Some s ∧ fresh_shape 1 j s ∧
         m_stopEvent s = false.
Proof.
  intros Hq. unfold InitInstanceIds.
  set (n := match q with Some maxId => to_uint64 (maxId + 2) | None => 1 + 1 end).
  assert (∃ j, Z.to_nat n = S (S j)) as [j Hj].
  { destruct q as [maxId|]; unfold n.
    - destruct (Hq maxId eq_refl). unfold to_uint64.
      rewrite Z.mod_small by lia. exists (Z.to_nat maxId). lia.
    - exists O. done. }
  rewrite Hj. simpl. eexists _, j. done.
Qed.

Lemma Init_fresh q s :
  (∀ maxId, q = Some maxId → 0 ≤ maxId ∧ maxId + 2 < 18446744073709551616) →
  InitInstanceIds q constructed = Some s →
  ∃ j, fresh_shape 1 j s.
Proof.
  intros Hq Hi. destruct (Init_fresh_ex q Hq) as (s' & j & Hi' & Hs & _).
  exists j. congruence.
Qed.

Lemma fresh_shape_inv m j s :
  (1 ≤ m)%nat → Z.of_nat m ≤ UINT32_MAX → fresh_shape m j s →
  cursor_nonzero s ∧ cursor_least_free s.
Proof.
  intros Hm Hle [Hnext Hbits]. unfold cursor_nonzero, cursor_least_free.
  rewrite Hnext, Hbits, Nat2Z.id. repeat split.
  - lia.
  - done.
  - intros k Hk. rewrite lookup_app_r by (rewrite length_replicate; lia).
    intros [? _]%lookup_replicate. done.
  - rewrite lookup_app_r by (rewrite length_replicate; lia).
    rewrite length_replicate, Nat.sub_diag. done.
  - intros k Hk. rewrite lookup_app_l by (rewrite length_replicate; lia).
    apply lookup_replicate_2. lia.
Qed.

Lemma Generate_fresh m j s :
  Z.of_nat m < UINT32_MAX → fresh_shape m j s →
  ∃ s', GenerateInstanceId s = Some (Z.of_nat m, s') ∧
        fresh_shape (S m) (pred j) s' ∧ m_stopEvent s' = m_stopEvent s.
Proof.
  intros Hlt [Hnext Hbits]. unfold GenerateInstanceId. rewrite Hnext, Hbits.
  destruct (Z.eqb_spec (Z.of_nat m) UINT32_MAX) as [|_]; [lia|].
  assert (valid_index (Z.of_nat m)
            (replicate m false ++ replicate (S j) true) = true) as ->.
  { apply valid_index_true. rewrite length_app, !length_replicate. lia. }
  rewrite Nat2Z.id.
  assert (<[m := false]> (replicate m false ++ replicate (S j) true)
          = replicate (S m) false ++ replicate j true) as ->.
  { rewrite (replicate_S_end m false), <- app_assoc.
    rewrite insert_app_r_alt by (rewrite length_replicate; lia).
    rewrite length_replicate, Nat.sub_diag. done. }
  unfold find_next.
  rewrite drop_app_length' by (by rewrite length_replicate).
  destruct j as [|j]; simpl.
  - eexists. split; [done|]. split; [|done]. split; simpl.
    + rewrite length_app, length_replicate. simpl.
      rewrite to_uint32_small; lia.
    + rewrite <- app_assoc. done.
  - eexists. split; [done|]. split; [|done]. split; simpl.
    + rewrite to_uint32_small; lia.
    + done.
Qed.

Lemma alloc_n_fresh N :
  ∀ m j s, Z.of_nat m + Z.of_nat N ≤ UINT32_MAX → fresh_shape m j s →
  ∃ s', alloc_n N s = Some (Z.of_nat <$> seq m N, s') ∧
        fresh_shape (m + N) (j - N) s' ∧ m_stopEvent s' = m_stopEvent s.
Proof.
  induction N as [|N IH]; intros m j s Hle Hs.
  - exists s. rewrite Nat.add_0_r, Nat.sub_0_r. done.
  - destruct (Generate_fresh m j s) as (s1 & Hg & Hs1 & Hstop1); [lia|done|].
    destruct (IH (S m) (pred j) s1) as (s2 & Ha & Hs2 & Hstop2); [lia|done|].
    exists s2. cbn [alloc_n]. rewrite Hg. simpl. rewrite Ha. simpl.
    split; [done|]. split; [|congruence].
    replace (m + S N)%nat with (S m + N)%nat by lia.
    by replace (j - S N)%nat with (pred j - N)%nat by lia.
Qed.

Lemma alloc_n_add a b s :
  alloc_n (a + b) s =
    '(r1, s1) ← alloc_n a s; '(r2, s2) ← alloc_n b s1; Some (r1 ++ r2, s2).
Proof.
  revert s. induction a as [|a IH]; intros s; simpl.
  - destruct (alloc_n b s) as [[r2 s2]|]; done.
  - destruct (GenerateInstanceId s) as [[i s1]|]; simpl; [|done].
    rewrite IH. destruct (alloc_n a s1) as [[r1 s1']|]; simpl; [|done].
    destruct (alloc_n b s1') as [[r2 s2]|]; done.
Qed.

(** Start-up leaves the cursor on the least free slot, with every slot
    above the last registered identifier free. *)
Lemma started_inv s last :
  started s last →
  cursor_nonzero s ∧ cursor_least_free s ∧
  0 ≤ last ∧ _nextInstanceId s ≤ last + 1 ∧
  last + 1 < Z.of_nat (length (_freeInstanceIds s)) ∧
  ∀ j : nat, last < Z.of_nat j → (j < length (_freeInstanceIds s))%nat →
             _freeInstanceIds s !! j = Some true.
Proof.
  induction 1 as [q s Hq Hi|s last i s' _ IH Hi Hlen Hr].
  - destruct (Init_fresh q s Hq Hi) as [j [Hnext Hbits]].
    destruct (fresh_shape_inv 1 j s) as [? ?];
      [lia|unfold UINT32_MAX; lia|done|].
    split; [done|]. split; [done|]. split; [done|].
    rewrite Hnext, Hbits. split; [lia|]. split.
    + rewrite length_app, !length_replicate. lia.
    + intros k Hk Hkl. rewrite length_app, !length_replicate in Hkl.
      rewrite lookup_app_r by (rewrite length_replicate; lia).
      apply lookup_replicate_2. rewrite length_replicate. lia.
  - destruct IH as ([Hn Hmax] & [Hfree Hleast] & Hl0 & Hnl & _ & Habove).
    unfold RegisterInstanceId in Hr.
    destruct (valid_index _ _); [|done]. injection Hr as <-.
    unfold cursor_nonzero, cursor_least_free. cbn [_nextInstanceId _freeInstanceIds].
    rewrite length_insert.
    destruct (Z.eqb_spec (_nextInstanceId s) i) as [Heq|Hne].
    + rewrite to_uint32_small by lia. repeat split; try lia.
      * intros j Hj. rewrite list_lookup_insert_ne by lia. by apply Hmax.
      * rewrite list_lookup_insert_ne by lia. apply Habove; lia.
      * intros j Hj. destruct (decide (j = Z.to_nat i)) as [->|Hji].
        -- apply list_lookup_insert_eq. lia.
        -- rewrite list_lookup_insert_ne by done. apply Hleast. lia.
      * intros j Hj Hjl. rewrite list_lookup_insert_ne by lia.
        apply Habove; lia.
    + repeat split; try lia.
      * intros j Hj. rewrite list_lookup_insert_ne by lia. by apply Hmax.
      * rewrite list_lookup_insert_ne by lia. done.
      * intros j Hj. rewrite list_lookup_insert_ne by lia. by apply Hleast.
      * intros j Hj Hjl. rewrite list_lookup_insert_ne by lia.
        apply Habove; lia.
Qed.

(** The invariant of the reachable states. *)
Lemma reachable_inv s h :
  reachable s h →
  cursor_nonzero s ∧ cursor_least_free s ∧
  ∀ x, x ∈ h → 0 < x ∧ x < Z.of_nat (length (_freeInstanceIds s)).
Proof.
  induction 1 as [s last Hs|s h i s' _ IH Hg|s h x s' _ IH Hx Hf].
  - destruct (started_inv s last Hs) as (? & ? & _).
    split; [done|]. split; [done|]. by intros x ?%elem_of_nil.
  - destruct IH as (Hnz & Hlf & Hh).
    pose proof (Generate_cursor_nonzero _ _ _ Hnz Hg) as [Hnz' _].
    pose proof (Generate_cursor_least_free _ _ _ Hnz Hlf Hg) as Hlf'.
    pose proof (Generate_length _ _ _ Hg) as Hlen.
    pose proof (Generate_returns_cursor _ _ _ Hg) as ->.
    split; [done|]. split; [done|].
    intros x [->|Hx]%elem_of_cons.
    + destruct Hnz as [? _], Hlf as [Hfree _].
      apply lookup_lt_Some in Hfree. lia.
    + destruct (Hh x Hx). lia.
  - destruct IH as (Hnz & Hlf & Hh). destruct (Hh x Hx) as [Hx0 _].
    split; [by eapply Free_cursor_nonzero|].
    split; [eapply Free_cursor_least_free; [|done..]; destruct Hnz; lia|].
    apply Free_Some in Hf as (_ & _ & ->). rewrite length_insert. done.
Qed.

Lemma reachable_strict_reachable s h :
  reachable_strict s h → reachable s h.
Proof.
  induction 1; [by eapply reach_start|by eapply reach_alloc
               |by eapply reach_release].
Qed.

Lemma step_cursor_nonzero op s s' r :
  op_ok op →
  (∀ j : nat, Z.of_nat j = UINT32_MAX → _freeInstanceIds s !! j ≠ Some false) →
  (match op with Initialize _ => True | _ => cursor_nonzero s end) →
  step op s = Some (s', r) →
  cursor_nonzero s' ∧ 0 ∉ r.
Proof.
  intros Hok Hmax Hs. destruct op as [q|i| |i]; simpl.
  - unfold InitInstanceIds. destruct (valid_index _ _); [|done].
    intros [= <- <-]. split; [|apply not_elem_of_nil].
    split; simpl; [unfold UINT32_MAX; lia|].
    intros j Hj. rewrite list_lookup_insert_ne by (unfold UINT32_MAX in *; lia).
    set (n := Z.to_nat _).
    destruct (decide (j < n)%nat) as [Hjn|Hjn].
    + destruct (decide (j < length (_freeInstanceIds s))%nat).
      * rewrite lookup_resize by done. by apply Hmax.
      * rewrite lookup_resize_new by lia. done.
    + rewrite lookup_resize_old by lia. done.
  - unfold RegisterInstanceId. destruct (valid_index _ _); [|done].
    intros [= <- <-]. split; [|apply not_elem_of_nil].
    destruct Hs as [Hn _]. simpl in Hok. split; simpl.
    + destruct (Z.eqb_spec (_nextInstanceId s) i).
      * rewrite to_uint32_small; lia.
      * done.
    + intros j Hj. rewrite list_lookup_insert_ne by lia. by apply Hmax.
  - destruct (GenerateInstanceId s) as [[i s1]|] eqn:Hg; [|done].
    simpl. intros [= <- <-].
    pose proof (Generate_cursor_nonzero _ _ _ Hs Hg) as [? _].
    pose proof (Generate_returns_cursor _ _ _ Hg) as ->.
    split; [done|]. destruct Hs as [? _].
    intros ?%list_elem_of_singleton. lia.
  - destruct (FreeInstanceId i s) as [s1|] eqn:Hf; [|done].
    simpl. intros [= <- <-]. split; [|apply not_elem_of_nil].
    simpl in Hok. eapply Free_cursor_nonzero; [done| |done]. lia.
Qed.

Lemma run_cursor_nonzero ops :
  ∀ s s' ids, Forall op_ok ops → cursor_nonzero s →
  run ops s = Some (s', ids) → 0 ∉ ids.
Proof.
  induction ops as [|op ops IH]; intros s s' ids Hok Hs; simpl.
  - intros [= _ <-]. apply not_elem_of_nil.
  - apply Forall_cons in Hok as [Hop Hok].
    destruct (step op s) as [[s1 r1]|] eqn:Hstep; [|done]. simpl.
    destruct (run ops s1) as [[s2 r2]|] eqn:Hrun; [|done]. simpl.
    intros [= _ <-].
    destruct (step_cursor_nonzero op s s1 r1) as [Hs1 Hr1]; try done.
    { by destruct Hs. } { by destruct op. }
    intros [?|?]%elem_of_app; [done|]. by eapply IH.
Qed.


Lemma Generate_is_Some s :
  0 ≤ _nextInstanceId s < Z.of_nat (length (_freeInstanceIds s)) →
  ∃ s', GenerateInstanceId s = Some (_nextInstanceId s, s').
Proof.
  intros Hv. unfold GenerateInstanceId.
  destruct (_ =? UINT32_MAX); [eauto|].
  apply valid_index_true in Hv. rewrite Hv.
  destruct (find_next _ _); eauto.
Qed.

Lemma overflow_repeats (K N : nat) s0 j :
  Z.of_nat K = 4294967294 → Z.of_nat N = 4294967296 → fresh_shape 1 j s0 →
  ∃ ids s', alloc_n N s0 = Some (ids, s') ∧ ¬ NoDup ids.
Proof.
  intros HK HN Hs0. replace N with (K + 2)%nat by lia. clear HN.
  destruct (alloc_n_fresh K 1 j s0) as (s1 & Ha & [Hnext _] & _);
    [unfold UINT32_MAX; lia|done|].
  assert (_nextInstanceId s1 = UINT32_MAX) as Hmax
    by (unfold UINT32_MAX; lia).
  rewrite alloc_n_add, Ha. cbn [mbind option_bind alloc_n].
  rewrite (Generate_overflow s1 Hmax). cbn [mbind option_bind].
  rewrite (Generate_overflow (mk UINT32_MAX _ true) eq_refl).
  cbn [mbind option_bind].
  eexists _, _. split; [done|].
  intros (_ & _ & Hnd)%NoDup_app.
  apply NoDup_cons_1_1 in Hnd. apply Hnd, list_elem_of_singleton. done.
Qed.

(** C10: in every state reached after [Initialize] (and the start-up
    registration of the identifiers in use) by [Allocate] calls outside the
    overflow branch and [Release] calls on identifiers that were returned
    before and are not free, the cursor is a valid index of the table, its
    slot is free, no lower slot is free, and the next [Allocate] returns
    it. *)
Theorem cursor_is_least_free_index s h :
  reachable_strict s h →
  0 ≤ _nextInstanceId s < Z.of_nat (length (_freeInstanceIds s)) ∧
  is_free s (_nextInstanceId s) ∧
  (∀ y, is_free s y → _nextInstanceId s ≤ y) ∧
  ∃ s', GenerateInstanceId s = Some (_nextInstanceId s, s').
Proof.
  intros Hr%reachable_strict_reachable.
  destruct (reachable_inv s h Hr) as ([Hn _] & [Hfree Hleast] & _).
  assert (0 ≤ _nextInstanceId s < Z.of_nat (length (_freeInstanceIds s)))
    as Hv by (apply lookup_lt_Some in Hfree; lia).
  split; [done|]. split; [split; [lia|done]|]. split.
  - intros y [Hy0 Hy].
    destruct (decide (_nextInstanceId s ≤ y)) as [|Hlt]; [done|].
    rewrite (Hleast (Z.to_nat y)) in Hy by lia. done.
  - by apply Generate_is_Some.
Qed.

Lemma cursor_is_least_free_index_witness :
  let s := mk 2 [false; false; true; false; true] false in
  0 ≤ _nextInstanceId s < Z.of_nat (length (_freeInstanceIds s)) ∧
  is_free s (_nextInstanceId s) ∧
  (∀ y, is_free s y → _nextInstanceId s ≤ y) ∧
  ∃ s', GenerateInstanceId s = Some (_nextInstanceId s, s').
Proof.
  apply (cursor_is_least_free_index _ [3; 2]).
  apply (sreach_release (mk 4 [false; false; false; false; true] false) _ 2);
    [|set_solver|reflexivity|reflexivity].
  apply (sreach_alloc (mk 3 [false; false; false; true; true] false));
    [|discriminate|reflexivity].
  apply (sreach_alloc (mk 2 [false; false; true; true; true] false));
    [|discriminate|reflexivity].
  apply (sreach_start _ 1).
  apply (started_register (mk 1 [false; true; true; true; true] false) 0 1);
    [|unfold UINT32_MAX; lia|simpl; lia|reflexivity].
  apply (started_init (Some 3)); [|reflexivity].
  intros maxId [= <-]. lia.
Defined.

(** C6, as the code has it: [N] successive [Allocate] calls on a fresh
    allocator, none of which runs into the overflow branch (that is
    [N] < 0xFFFFFFFF), return [N] pairwise distinct nonzero identifiers; and
    in every state reached by [Allocate] and [Release] of returned
    identifiers, [Release x] followed by [Allocate] returns [x] when no
    identifier below [x] is free at the [Allocate]. *)
Theorem allocate_distinct_release_roundtrip q (N : nat) s h x :
  (∀ maxId, q = Some maxId → 0 ≤ maxId ∧ maxId + 2 < 18446744073709551616) →
  Z.of_nat N < UINT32_MAX →
  reachable s h → x ∈ h →
  (∃ s0 ids s', InitInstanceIds q constructed = Some s0 ∧
                alloc_n N s0 = Some (ids, s') ∧
                ids = Z.of_nat <$> seq 1 N ∧
                length ids = N ∧ NoDup ids ∧ (0 ∉ ids) ∧
                m_stopEvent s' = false) ∧
  (∃ s1, FreeInstanceId x s = Some s1 ∧
         ((∀ y, y < x → ¬ is_free s1 y) →
          ∃ s2, GenerateInstanceId s1 = Some (x, s2))).
Proof.
  intros Hq HN Hr Hx. split.
  - destruct (Init_fresh_ex q Hq) as (s0 & j & Hi & Hs0 & Hstop0).
    destruct (alloc_n_fresh N 1 j s0) as (s' & Ha & _ & Hstop);
      [lia|done|].
    exists s0, (Z.of_nat <$> seq 1 N), s'.
    split; [done|]. split; [done|]. split; [done|].
    split; [|split; [|split]].
    + by rewrite length_fmap, length_seq.
    + apply NoDup_fmap_2; [apply _|apply NoDup_seq].
    + intros (k & Hk & Hin%elem_of_seq)%list_elem_of_fmap. lia.
    + congruence.
  - destruct (reachable_inv s h Hr) as ([Hn Hmax] & [Hfree Hleast] & Hh).
    destruct (Hh x Hx) as [Hx0 Hxlen].
    destruct (Free_is_Some x s) as [s1 Hf]; [lia|].
    exists s1. split; [done|]. intros Hlow.
    pose proof (Free_Some _ _ _ Hf) as (_ & Hnext & Hbits).
    assert (_nextInstanceId s1 = x) as Hc.
    { destruct (decide (x ≤ _nextInstanceId s)); [lia|].
      exfalso. apply (Hlow (_nextInstanceId s)); [lia|].
      split; [lia|]. rewrite Hbits, list_lookup_insert_ne by lia. done. }
    rewrite <- Hc. apply Generate_is_Some.
    rewrite Hc, Hbits, length_insert. lia.
Qed.

Lemma allocate_distinct_release_roundtrip_witness :
  (∃ s0 ids s', InitInstanceIds (Some 0) constructed = Some s0 ∧
                alloc_n 3 s0 = Some (ids, s') ∧
                ids = Z.of_nat <$> seq 1 3 ∧
                length ids = 3%nat ∧ NoDup ids ∧ (0 ∉ ids) ∧
                m_stopEvent s' = false) ∧
  (∃ s1, FreeInstanceId 1 (mk 3 [false; false; false; true] false) = Some s1 ∧
         ((∀ y, y < 1 → ¬ is_free s1 y) →
          ∃ s2, GenerateInstanceId s1 = Some (1, s2))).
Proof.
  apply (allocate_distinct_release_roundtrip (Some 0) 3 _ [2; 1] 1).
  - intros maxId [= <-]. lia.
  - unfold UINT32_MAX. lia.
  - apply (reach_alloc (mk 2 [false; false; true] false)); [|reflexivity].
    apply (reach_alloc (mk 1 [false; true] false)); [|reflexivity].
    apply (reach_start _ 0).
    apply (started_init (Some 0)); [|reflexivity].
    intros maxId [= <-]. lia.
  - set_solver.
Defined.

(** C6 as stated fails: 2^32 successive [Allocate] calls on a fresh
    allocator do not return pairwise distinct identifiers (the last two run
    into the overflow branch and both return 0xFFFFFFFF). *)
Lemma allocate_repeats_after_overflow :
  ∃ s0 ids s', InitInstanceIds (Some 0) constructed = Some s0 ∧
               alloc_n (Z.to_nat 4294967296) s0 = Some (ids, s') ∧
               ¬ NoDup ids.
Proof.
  destruct (Init_fresh_ex (Some 0)) as (s0 & j & Hi & Hs0 & _).
  { intros maxId [= <-]. lia. }
  destruct (overflow_repeats (Z.to_nat 4294967294) (Z.to_nat 4294967296) s0 j)
    as (ids & s' & Ha & Hnd).
  { apply Z2Nat.id. lia. }
  { apply Z2Nat.id. lia. }
  { exact Hs0. }
  exists s0, ids, s'. split; [exact Hi|]. split; [exact Ha|exact Hnd].
Qed.

(** C7, as the code has it: after [Initialize], in every sequence of calls in
    which [Release] is not given 0 and [Reserve] is not given 0xFFFFFFFF, no
    [Allocate] returns 0. *)
Theorem allocate_never_zero q ops s ids :
  Forall op_ok ops →
  run (Initialize q :: ops) constructed = Some (s, ids) →
  0 ∉ ids.
Proof.
  intros Hok. cbn [run].
  destruct (step (Initialize q) constructed) as [[s1 r1]|] eqn:Hstep; [|done].
  cbn [mbind option_bind].
  destruct (run ops s1) as [[s2 r2]|] eqn:Hrun; [|done].
  cbn [mbind option_bind]. intros [= _ <-].
  destruct (step_cursor_nonzero (Initialize q) constructed s1 r1)
    as [Hs1 Hr1]; [done|by intros j _|done|done|].
  intros [?|?]%elem_of_app; [done|]. by eapply run_cursor_nonzero.
Qed.

Lemma allocate_never_zero_witness :
  0 ∉ [2; 3; 1].
Proof.
  apply (allocate_never_zero (Some 5)
           [Reserve 1; Reserve 3; Allocate; Release 3; Allocate;
            Initialize None; Allocate]
           (mk 2 [false; false; true] false)).
  - repeat first [apply Forall_nil | apply Forall_cons_2];
      unfold op_ok, UINT32_MAX; first [exact I | lia].
  - reflexivity.
Defined.

(** C7 as stated fails: [Release 0] makes the next [Allocate] return 0. *)
Lemma release_zero_allocate_zero :
  ∃ s, run [Initialize (Some 0); Release 0; Allocate] constructed
       = Some (s, [0]).
Proof. eexists. reflexivity. Qed.

End InstanceIdsFacts.

(** * Properties of the admission check *)

Module AdmissionFacts.
Import Admission Samples.

Lemma PlayerCannotEnter_at_corpse_check w st fuel mapid player loginCheck entry :
  reaches_corpse_check w mapid player entry →
  PlayerCannotEnter w st fuel mapid player loginCheck =
    if negb (IsAlive player) then
      if HasCorpse player then
        corpseMap ← corpse_walk w fuel mapid (GetCorpseLocation_GetMapId player);
        if corpseMap =? 0
        then Some CANNOT_ENTER_CORPSE_IN_DIFFERENT_INSTANCE
        else Some (after_corpse_check w st mapid entry player loginCheck)
      else Some (after_corpse_check w st mapid entry player loginCheck)
    else Some (after_corpse_check w st mapid entry player loginCheck).
Proof.
  intros (He & Hd & [tmpl Ht] & (diff & Hdiff & Hsat) & Hgm & Hraid).
  unfold PlayerCannotEnter.
  rewrite He, Hd, Ht, Hdiff, Hgm, Hsat, Hraid. done.
Qed.

(** The loop leaves a nonzero value only by finding the target. *)
Lemma corpse_walk_found w fuel mapid :
  ∀ start c, corpse_walk w fuel mapid start = Some c → c ≠ 0 →
  c = mapid ∧ in_corpse_chain w start mapid.
Proof.
  induction fuel as [|fuel IH]; intros start c; simpl; [done|].
  destruct (Z.eqb_spec start mapid) as [->|Hne].
  - intros [= <-] _. split; [done|apply chain_here].
  - destruct (GetInstanceTemplate w start) as [tmpl|] eqn:Ht.
    + destruct (Z.eqb_spec (Parent tmpl) 0) as [E|E].
      * intros [= <-]. done.
      * intros Hw Hc. destruct (IH _ _ Hw Hc) as [-> Hchain].
        split; [done|]. by eapply chain_up.
    + simpl. intros [= <-]. done.
Qed.

(** It leaves with 0 only when the target is not in the chain, the target
    being a nonzero id. *)
Lemma corpse_walk_not_found w fuel mapid :
  mapid ≠ 0 →
  ∀ start, corpse_walk w fuel mapid start = Some 0 →
  ¬ in_corpse_chain w start mapid.
Proof.
  intros Hm. induction fuel as [|fuel IH]; intros start; simpl; [done|].
  destruct (Z.eqb_spec start mapid) as [->|Hne]; [by intros [= ?]|].
  destruct (GetInstanceTemplate w start) as [tmpl|] eqn:Ht.
  - destruct (Z.eqb_spec (Parent tmpl) 0) as [E|E].
    + intros _ Hchain. inversion Hchain; subst; [done|]. congruence.
    + intros Hw Hchain. inversion Hchain; subst; [done|].
      apply (IH _ Hw). congruence.
  - intros _ Hchain. inversion Hchain; subst; [done|]. congruence.
Qed.

(** More rounds do not change the outcome of a walk that ended. *)
Lemma corpse_walk_more_fuel w fuel mapid :
  ∀ start c fuel', corpse_walk w fuel mapid start = Some c → (fuel ≤ fuel')%nat →
  corpse_walk w fuel' mapid start = Some c.
Proof.
  induction fuel as [|fuel IH]; intros start c fuel'; simpl; [done|].
  intros Hw Hle. destruct fuel' as [|fuel']; [lia|]. simpl.
  destruct (start =? mapid); [done|].
  destruct (_ =? 0); [done|]. apply IH; [done|lia].
Qed.

(** C1, as the code has it: in an evaluation that arrives at the block on
    dead players, for a player who is not alive and has a corpse, a target id
    other than 0 and a walk up the parents that ends, the result is "corpse in
    different instance" exactly when the target is not in the chain of the
    corpse (a chain that ends at parent id 0); when the target is in the
    chain the block denies nothing and the result is that of the later
    rules. *)
Theorem corpse_chain_rule w st fuel mapid player loginCheck entry :
  reaches_corpse_check w mapid player entry →
  IsAlive player = false → HasCorpse player = true →
  mapid ≠ 0 →
  is_Some (corpse_walk w fuel mapid (GetCorpseLocation_GetMapId player)) →
  (¬ in_corpse_chain w (GetCorpseLocation_GetMapId player) mapid →
   PlayerCannotEnter w st fuel mapid player loginCheck
     = Some CANNOT_ENTER_CORPSE_IN_DIFFERENT_INSTANCE) ∧
  (in_corpse_chain w (GetCorpseLocation_GetMapId player) mapid →
   PlayerCannotEnter w st fuel mapid player loginCheck
     = Some (after_corpse_check w st mapid entry player loginCheck)).
Proof.
  intros Hreach Halive Hcorpse Hm [c Hw].
  rewrite (PlayerCannotEnter_at_corpse_check _ _ _ _ _ _ _ Hreach).
  rewrite Halive, Hcorpse, Hw. simpl.
  destruct (Z.eqb_spec c 0) as [->|Hc]; split; try done.
  - intros Hchain. by destruct (corpse_walk_not_found _ _ _ Hm _ Hw).
  - intros Hno. by destruct (corpse_walk_found _ _ _ _ _ Hw Hc) as [_ ?].
Qed.

(** C2: a game master is admitted to every dungeon that exists, has an
    instance template and offers a difficulty, whatever the other
    properties of the player are. *)
Theorem game_master_bypass w st fuel mapid player loginCheck entry :
  LookupEntry w mapid = Some entry →
  IsDungeon entry = true →
  is_Some (GetInstanceTemplate w mapid) →
  is_Some (GetDownscaledMapDifficultyData w mapid (GetDifficultyID player entry)) →
  IsGameMaster player = true →
  PlayerCannotEnter w st fuel mapid player loginCheck = Some CAN_ENTER.
Proof.
  intros He Hd [tmpl Ht] [diff Hdiff] Hgm. unfold PlayerCannotEnter.
  by rewrite He, Hd, Ht, Hdiff, Hgm.
Qed.

(** C3, as the code has it: for a player who is dead and has no corpse, in
    an evaluation that arrives at the block on dead players, the manager
    denies nothing of its own: the result is the denial answered by the map
    the group is bound to, if there is one, and success otherwise. *)
Theorem dead_without_corpse w st fuel mapid player loginCheck entry :
  reaches_corpse_check w mapid player entry →
  IsAlive player = false → isDead player = true → HasCorpse player = false →
  PlayerCannotEnter w st fuel mapid player loginCheck =
    Some (default CAN_ENTER
            (bound_instance_check w st mapid entry player loginCheck)).
Proof.
  intros Hreach Halive Hdead Hcorpse.
  rewrite (PlayerCannotEnter_at_corpse_check _ _ _ _ _ _ _ Hreach).
  rewrite Halive, Hcorpse. simpl. unfold after_corpse_check.
  destruct (bound_instance_check _ _ _ _ _ _); [done|].
  unfold instance_count_check. rewrite Hdead, andb_false_r.
  by destruct (_ && _).
Qed.

(** *** Concrete evaluations *)

Lemma sample_reaches (id : Z) (p : Player) :
  id = 0 ∨ id = 33 ∨ id = 34 →
  IsGameMaster p = false → Satisfy p None id true = true → GetGroup p = None →
  reaches_corpse_check sample_world id p (dungeon_entry id).
Proof.
  intros Hid Hgm Hsat Hgrp. unfold reaches_corpse_check.
  destruct Hid as [ -> | [ -> | -> ] ]; (split; [done|]);
    (split; [done|]); (split; [simpl; eauto|]).
  all: split; [|done].
  all: by eexists.
Qed.

Lemma corpse_chain_rule_witness :
  (¬ in_corpse_chain sample_world 34 33 →
   PlayerCannotEnter sample_world sample_maps 3 33 (ghost 34) false
     = Some CANNOT_ENTER_CORPSE_IN_DIFFERENT_INSTANCE) ∧
  (in_corpse_chain sample_world 34 33 →
   PlayerCannotEnter sample_world sample_maps 3 33 (ghost 34) false
     = Some (after_corpse_check sample_world sample_maps 33
               (dungeon_entry 33) (ghost 34) false)).
Proof.
  apply (corpse_chain_rule sample_world sample_maps 3 33 (ghost 34) false
           (dungeon_entry 33)).
  - apply sample_reaches; auto.
  - reflexivity.
  - reflexivity.
  - lia.
  - exists 33. reflexivity.
Defined.

(** C1 as stated fails for the target id 0: the corpse lies on the target
    map itself, so the target is in the chain, and the result still is
    "corpse in different instance". *)
Lemma corpse_on_target_zero_denied :
  reaches_corpse_check sample_world 0 (ghost 0) (dungeon_entry 0) ∧
  IsAlive (ghost 0) = false ∧ HasCorpse (ghost 0) = true ∧
  in_corpse_chain sample_world (GetCorpseLocation_GetMapId (ghost 0)) 0 ∧
  PlayerCannotEnter sample_world sample_maps 3 0 (ghost 0) false
    = Some CANNOT_ENTER_CORPSE_IN_DIFFERENT_INSTANCE.
Proof.
  split; [apply sample_reaches; auto|].
  repeat split. apply chain_here.
Qed.

Lemma game_master_bypass_witness :
  PlayerCannotEnter sample_world sample_maps 0 34 dead_game_master false
    = Some CAN_ENTER.
Proof.
  apply (game_master_bypass sample_world sample_maps 0 34 dead_game_master
           false (dungeon_entry 34)).
  - reflexivity.
  - reflexivity.
  - eexists. reflexivity.
  - eexists. reflexivity.
  - reflexivity.
Defined.

Lemma dead_without_corpse_witness :
  PlayerCannotEnter sample_world sample_maps 0 34 released_spirit false =
    Some (default CAN_ENTER
            (bound_instance_check sample_world sample_maps 34
               (dungeon_entry 34) released_spirit false)).
Proof.
  apply (dead_without_corpse sample_world sample_maps 0 34 released_spirit
           false (dungeon_entry 34)).
  - apply sample_reaches; auto.
  - reflexivity.
  - reflexivity.
  - reflexivity.
Defined.

(** C3 as stated fails: a dead player without corpse who passes the first
    seven rules is admitted, not denied. *)
Lemma dead_without_corpse_admitted :
  reaches_corpse_check sample_world 34 released_spirit (dungeon_entry 34) ∧
  IsAlive released_spirit = false ∧ isDead released_spirit = true ∧
  HasCorpse released_spirit = false ∧
  PlayerCannotEnter sample_world sample_maps 0 34 released_spirit false
    = Some CAN_ENTER.
Proof.
  split; [apply sample_reaches; auto|]. repeat split.
Qed.

End AdmissionFacts.

(** * Properties of the update pass *)

Module UpdateFacts.
Import Maps.

Lemma timer_Update diff tm :
  0 ≤ IntervalTimer._current tm + diff →
  IntervalTimer.Update diff tm =
    IntervalTimer.mk (IntervalTimer._interval tm)
      (IntervalTimer._current tm + diff).
Proof.
  intros Hpos. unfold IntervalTimer.Update.
  destruct (Z.ltb_spec (IntervalTimer._current tm + diff) 0); [lia|done].
Qed.

(** A call that reaches the threshold makes one pass and resets the
    accumulator. *)
Lemma Update_passed diff st :
  IntervalTimer._interval (i_timer st) ≤ IntervalTimer._current (i_timer st) + diff →
  0 ≤ IntervalTimer._current (i_timer st) + diff →
  Update diff st =
    (set_i_timer (λ _, IntervalTimer.mk (IntervalTimer._interval (i_timer st)) 0) st,
     pass_events (m_updater_activated st)
       (to_uint32 (IntervalTimer._current (i_timer st) + diff))
       (map_to_list (i_maps st))).
Proof.
  intros Hle Hpos. unfold Update, set_i_timer. cbn [i_timer].
  rewrite timer_Update by done. unfold IntervalTimer.Passed.
  cbn [IntervalTimer._interval IntervalTimer._current].
  destruct (Z.leb_spec (IntervalTimer._interval (i_timer st))
              (IntervalTimer._current (i_timer st) + diff)); [|lia].
  reflexivity.
Qed.

(** A call below the threshold only accumulates. *)
Lemma Update_accumulates diff st :
  IntervalTimer._current (i_timer st) + diff < IntervalTimer._interval (i_timer st) →
  0 ≤ IntervalTimer._current (i_timer st) + diff →
  Update diff st =
    (set_i_timer (λ _, IntervalTimer.mk (IntervalTimer._interval (i_timer st))
                         (IntervalTimer._current (i_timer st) + diff)) st, []).
Proof.
  intros Hlt Hpos. unfold Update, set_i_timer. cbn [i_timer].
  rewrite timer_Update by done. unfold IntervalTimer.Passed.
  cbn [IntervalTimer._interval IntervalTimer._current].
  destruct (Z.leb_spec (IntervalTimer._interval (i_timer st))
              (IntervalTimer._current (i_timer st) + diff)); [lia|].
  reflexivity.
Qed.

(** C5: with a threshold [T] > 0 and the accumulator at 0, two calls whose
    deltas sum to less than [T] make no call to any map and only
    accumulate; two calls whose deltas sum to [T] make exactly one pass:
    every registered map receives one primary and one delayed update, all
    primary updates before the first delayed one, in the order in which the
    registry is walked, and the accumulator is 0 afterwards.  With update
    threads the primary updates are handed to the updater, which is awaited
    before the first delayed update. *)
Theorem two_calls_one_pass st d1 d2 :
  0 < IntervalTimer._interval (i_timer st) →
  IntervalTimer._current (i_timer st) = 0 →
  0 ≤ d1 ≤ UINT32_MAX → 0 ≤ d2 ≤ UINT32_MAX →
  let r1 := Update d1 st in
  let r2 := Update d2 r1.1 in
  i_maps r2.1 = i_maps st ∧
  (d1 + d2 < IntervalTimer._interval (i_timer st) →
   r1.2 ++ r2.2 = [] ∧ IntervalTimer._current (i_timer r2.1) = d1 + d2) ∧
  (d1 + d2 = IntervalTimer._interval (i_timer st) →
   ∃ maps,
     let t_diff := to_uint32 (IntervalTimer._interval (i_timer st)) in
     NoDup maps.*1 ∧
     (∀ id map, (id, map) ∈ maps ↔ i_maps st !! id = Some map) ∧
     r1.2 ++ r2.2 =
       ((λ kv, if m_updater_activated st
               then ScheduleUpdate kv.1 kv.2 t_diff
               else MapUpdate kv.1 kv.2 t_diff) <$> maps) ++
       (if m_updater_activated st then [UpdaterWait] else []) ++
       ((λ kv, MapDelayedUpdate kv.1 kv.2 t_diff) <$> maps) ∧
     IntervalTimer._current (i_timer r2.1) = 0).
Proof.
  intros HT Hc Hd1 Hd2. cbn zeta.
  destruct (decide (d1 < IntervalTimer._interval (i_timer st))) as [Hlt|Hge].
  - rewrite (Update_accumulates d1 st) by lia. cbn [fst snd].
    set (st1 := set_i_timer _ st).
    assert (IntervalTimer._current (i_timer st1) = d1) as Hc1 by (simpl; lia).
    assert (IntervalTimer._interval (i_timer st1) = IntervalTimer._interval (i_timer st)) as Hi1 by done.
    split; [|split].
    + destruct (decide (d1 + d2 < IntervalTimer._interval (i_timer st))).
      * rewrite (Update_accumulates d2 st1) by lia. done.
      * rewrite (Update_passed d2 st1) by lia. done.
    + intros Hsum. rewrite (Update_accumulates d2 st1) by lia.
      split; [done|]. simpl. lia.
    + intros Hsum. rewrite (Update_passed d2 st1) by lia.
      exists (map_to_list (i_maps st)). cbn zeta.
      split; [apply NoDup_fst_map_to_list|].
      split; [intros id map; apply elem_of_map_to_list|].
      split; [|done]. cbn [fst snd app]. rewrite Hc1, <- Hsum.
      done.
  - rewrite (Update_passed d1 st) by lia. cbn [fst snd].
    set (st1 := set_i_timer _ st).
    assert (IntervalTimer._current (i_timer st1) = 0) as Hc1 by done.
    assert (IntervalTimer._interval (i_timer st1) = IntervalTimer._interval (i_timer st)) as Hi1 by done.
    split; [|split].
    + destruct (decide (d2 < IntervalTimer._interval (i_timer st))).
      * rewrite (Update_accumulates d2 st1) by lia. done.
      * rewrite (Update_passed d2 st1) by lia. done.
    + intros Hsum. lia.
    + intros Hsum. rewrite (Update_accumulates d2 st1) by lia.
      exists (map_to_list (i_maps st)). cbn zeta.
      split; [apply NoDup_fst_map_to_list|].
      split; [intros id map; apply elem_of_map_to_list|].
      split; [|simpl; lia]. cbn [fst snd]. rewrite app_nil_r, Hc, <- Hsum.
      replace (0 + d1) with (d1 + d2) by lia. done.
Qed.

Lemma two_calls_one_pass_witness :
  let st := Samples.terrain_maps_created in
  let r1 := Update 40 st in
  let r2 := Update 60 r1.1 in
  i_maps r2.1 = i_maps st ∧
  (40 + 60 < IntervalTimer._interval (i_timer st) →
   r1.2 ++ r2.2 = [] ∧ IntervalTimer._current (i_timer r2.1) = 40 + 60) ∧
  (40 + 60 = IntervalTimer._interval (i_timer st) →
   ∃ maps,
     let t_diff := to_uint32 (IntervalTimer._interval (i_timer st)) in
     NoDup maps.*1 ∧
     (∀ id map, (id, map) ∈ maps ↔ i_maps st !! id = Some map) ∧
     r1.2 ++ r2.2 =
       ((λ kv, if m_updater_activated st
               then ScheduleUpdate kv.1 kv.2 t_diff
               else MapUpdate kv.1 kv.2 t_diff) <$> maps) ++
       (if m_updater_activated st then [UpdaterWait] else []) ++
       ((λ kv, MapDelayedUpdate kv.1 kv.2 t_diff) <$> maps) ∧
     IntervalTimer._current (i_timer r2.1) = 0).
Proof.
  apply (two_calls_one_pass Samples.terrain_maps_created 40 60).
  - reflexivity.
  - reflexivity.
  - unfold UINT32_MAX. lia.
  - unfold UINT32_MAX. lia.
Defined.

(** The two calls of the witness on the manager with the maps 1 and 2. *)
Example two_calls_trace :
  let r1 := Update 40 Samples.terrain_maps_created in
  let r2 := Update 60 r1.1 in
  r1.2 = [] ∧
  r2.2 = [MapUpdate 2 1 100; MapUpdate 1 0 100;
          MapDelayedUpdate 2 1 100; MapDelayedUpdate 1 0 100] ∧
  IntervalTimer._current (i_timer r2.1) = 0.
Proof. vm_compute. done. Qed.

End UpdateFacts.

(** * Properties of the registry of base maps *)

Module MapsFacts.
Import Maps.

Ltac simpl_st :=
  cbn [i_maps objects _parentMapData i_gridCleanUpDelay i_timer
       m_updater_activated set_objects set_i_maps set_parentMapData
       set_i_timer AddChildTerrainMap LoadRespawnTimes LoadCorpseData] in *.

(** ** More fuel does not change a result *)

Lemma attach_children_mono w (create1 create2 : MapEntry → t → option (addr * t))
    map children :
  (∀ e st r, create1 e st = Some r → create2 e st = Some r) →
  ∀ st r, attach_children w create1 map children st = Some r →
          attach_children w create2 map children st = Some r.
Proof.
  intros Hc. induction children as [|c cs IH]; intros st r; simpl; [done|].
  destruct (AssertEntry w c) as [e|]; simpl; [|done].
  destruct (create1 e st) as [[child st1]|] eqn:E; simpl; [|done].
  rewrite (Hc _ _ _ E). simpl. apply IH.
Qed.

Lemma CreateBaseMap_i_mono w fuel :
  ∀ fuel' e st r, (fuel ≤ fuel')%nat →
  CreateBaseMap_i w fuel e st = Some r → CreateBaseMap_i w fuel' e st = Some r.
Proof.
  induction fuel as [|fuel IH]; intros fuel' e st r Hle; simpl; [done|].
  destruct fuel' as [|fuel']; [lia|]. simpl.
  destruct (attach_children w (CreateBaseMap_i w fuel) _ _ _) as [st4|] eqn:E;
    simpl; [|done].
  erewrite attach_children_mono; [done| |exact E].
  intros e' st' r'. apply IH. lia.
Qed.

Lemma CreateBaseMap_mono w fuel :
  ∀ fuel' id st r, (fuel ≤ fuel')%nat →
  CreateBaseMap w fuel id st = Some r → CreateBaseMap w fuel' id st = Some r.
Proof.
  induction fuel as [|fuel IH]; intros fuel' id st r Hle.
  - simpl. destruct (FindBaseMap id st) eqn:E; [|done].
    intros <-. destruct fuel'; simpl; by rewrite E.
  - destruct fuel' as [|fuel']; [lia|]. simpl.
    destruct (FindBaseMap id st); [done|].
    destruct (AssertEntry w id) as [entry|]; simpl; [|done].
    destruct (bool_decide _).
    + destruct (CreateBaseMap w fuel _ st) as [[m st1]|] eqn:E; simpl; [|done].
      rewrite (IH fuel' _ st (m, st1) ltac:(lia) E). done.
    + apply CreateBaseMap_i_mono. lia.
Qed.

(** A registered map is returned as it is. *)
Lemma CreateBaseMap_found w fuel id st map :
  i_maps st !! id = Some map → CreateBaseMap w fuel id st = Some (map, st).
Proof. intros H. destruct fuel; simpl; unfold FindBaseMap; by rewrite H. Qed.

(** For a definition with a declared parent that is not registered, the
    manager creates the parent's map and takes the child from the
    registry. *)
Lemma CreateBaseMap_child w fuel id st e p :
  i_maps st !! id = None →
  sMapStore w !! id = Some e → declared_parent e = Some p →
  CreateBaseMap w (S fuel) id st =
    '(_, st1) ← CreateBaseMap w fuel p st;
    map ← FindBaseMap id st1; Some (map, st1).
Proof.
  intros Hn He Hp. simpl. unfold FindBaseMap at 1. rewrite Hn.
  unfold AssertEntry. rewrite He. simpl.
  unfold declared_parent in Hp. destruct (bool_decide _); [|done].
  by injection Hp as <-.
Qed.

Lemma CreateBaseMap_root w fuel id st e :
  i_maps st !! id = None →
  sMapStore w !! id = Some e → declared_parent e = None →
  CreateBaseMap w (S fuel) id st = CreateBaseMap_i w fuel e st.
Proof.
  intros Hn He Hp. simpl. unfold FindBaseMap. rewrite Hn.
  unfold AssertEntry. rewrite He. simpl.
  unfold declared_parent in Hp. by destruct (bool_decide _).
Qed.


(** ** The forest of definitions *)

Section Forest.
Context (w : World) (kids : Z → list Z) (level : Z → nat) (height : nat).
Context (Hwf : wf_data w kids level height).

Lemma below_level r x :
  below kids r x → (level r ≤ level x)%nat ∧ (level r = level x → r = x).
Proof.
  induction 1 as [r|r c x Hc _ [IH1 IH2]]; [done|].
  pose proof (wf_level _ _ _ _ Hwf _ _ Hc). split; lia.
Qed.

Lemma kids_parent_unique p p' c : c ∈ kids p → c ∈ kids p' → p = p'.
Proof.
  intros (e & He & Hp)%(wf_kids _ _ _ _ Hwf) (e' & He' & Hp')%(wf_kids _ _ _ _ Hwf).
  congruence.
Qed.

Lemma below_kid r c x : c ∈ kids r → below kids c x → below kids r x.
Proof. intros Hc Hx. by eapply rtc_l. Qed.

Lemma below_inv r x :
  below kids r x → x = r ∨ ∃ c, c ∈ kids r ∧ below kids c x.
Proof. intros [->|(c & ? & ?)]%rtc_inv; eauto. Qed.

Lemma siblings_disjoint p c1 c2 x :
  c1 ∈ kids p → c2 ∈ kids p → c1 ≠ c2 →
  below kids c1 x → below kids c2 x → False.
Proof.
  intros H1 H2 Hne Hb1. revert x Hb1. unfold below.
  apply (rtc_ind_r (λ x, rtc (λ p c, c ∈ kids p) c2 x → False));
    [|intros y x Hb1 Hxy IH]; intros Hb2.
  - apply rtc_inv_r in Hb2 as [?|(y & Hb2 & Hy)]; [done|].
    assert (y = p) as -> by (by eapply kids_parent_unique).
    apply below_level in Hb2 as [? _].
    pose proof (wf_level _ _ _ _ Hwf _ _ H2). lia.
  - apply rtc_inv_r in Hb2 as [->|(y' & Hb2 & Hy')].
    + assert (y = p) as -> by (by eapply kids_parent_unique).
      apply below_level in Hb1 as [? _].
      pose proof (wf_level _ _ _ _ Hwf _ _ H1). lia.
    + assert (y' = y) as -> by (by eapply kids_parent_unique).
      by apply IH.
Qed.

Lemma not_below_parent r c : c ∈ kids r → ¬ below kids c r.
Proof.
  intros Hc [? _]%below_level.
  pose proof (wf_level _ _ _ _ Hwf _ _ Hc). lia.
Qed.

(** A registered map whose children's registrations and whose object are
    kept stays registered. *)
Lemma registered_from_frame n n' st st' x :
  registered_from kids n st x →
  i_maps st' !! x = i_maps st !! x →
  (∀ k, k ∈ kids x → i_maps st' !! k = i_maps st !! k) →
  (∀ a o, i_maps st !! x = Some a → (n ≤ a)%nat → objects st !! a = Some o →
          (n' ≤ a)%nat ∧ objects st' !! a = objects st !! a) →
  registered_from kids n' st' x.
Proof.
  intros (a & o & Ha & Hn & Ho & Hid & Hk) Hx Hkids Hobj.
  destruct (Hobj a o Ha Hn Ho) as [Hn' Ho'].
  exists a, o. split; [congruence|]. split; [done|].
  split; [congruence|]. split; [done|].
  rewrite <- Hk. apply list_fmap_ext. intros i k Hi.
  apply Hkids. by eapply list_elem_of_lookup_2.
Qed.

(** Registered maps with the same object are the same map. *)
Lemma registry_inj st x y a :
  registry_inv w kids st →
  i_maps st !! x = Some a → i_maps st !! y = Some a → x = y.
Proof.
  intros Hinv Hx Hy.
  destruct (inv_registered _ _ _ Hinv x) as (a1 & o1 & Ha1 & _ & Ho1 & Hid1 & _);
    [by eexists|].
  destruct (inv_registered _ _ _ Hinv y) as (a2 & o2 & Ha2 & _ & Ho2 & Hid2 & _);
    [by eexists|].
  congruence.
Qed.

(** The registered object of a map has the registered objects of the
    children of the map attached, each once. *)
Lemma registered_kid st p c :
  registry_inv w kids st → is_Some (i_maps st !! p) → c ∈ kids p →
  ∃ ap ac, i_maps st !! p = Some ap ∧ i_maps st !! c = Some ac ∧
           attached_once st ap ac.
Proof.
  intros Hinv Hp Hc.
  destruct (inv_registered _ _ _ Hinv p Hp) as (a & o & Ha & _ & Ho & _ & Hk).
  apply list_elem_of_lookup in Hc as [i Hi].
  assert ((Some <$> m_childTerrainMaps o) !! i = Some (i_maps st !! c)) as Hl.
  { rewrite <- Hk, list_lookup_fmap, Hi. done. }
  rewrite list_lookup_fmap in Hl.
  destruct (m_childTerrainMaps o !! i) as [ac|] eqn:Hac; [|done].
  injection Hl as Hl. exists a, ac. split; [done|]. split; [done|].
  exists o, i. split; [done|]. split; [done|].
  intros j Hj.
  assert (kids p !! j = Some c) as Hcj.
  { assert (((λ c, i_maps st !! c) <$> kids p) !! j = Some (Some ac)) as Hlj
      by (by rewrite Hk, list_lookup_fmap, Hj).
    rewrite list_lookup_fmap in Hlj.
    destruct (kids p !! j) as [c'|] eqn:Hc'; [|done].
    injection Hlj as Hlj. f_equal. by eapply registry_inj. }
  eapply NoDup_lookup; [apply (wf_kids_NoDup _ _ _ _ Hwf)|done..].
Qed.

(** ** Creation of a tree of maps *)

Lemma children_of_insert (pmd : gmap Z (list Z)) r id :
  children_of (<[r := children_of pmd r]> pmd) id = children_of pmd id.
Proof.
  unfold children_of. destruct (decide (r = id)) as [->|].
  - by rewrite lookup_insert_eq.
  - by rewrite lookup_insert_ne.
Qed.

(** The loop over the children, given that [CreateBaseMap_i] with the fuel
    of the loop does its work on every child. *)
Lemma attach_children_spec fuel r st :
  (∀ e s c, sMapStore w !! c = Some e → (height + 1 - level c ≤ fuel)%nat →
     (∀ id, children_of (_parentMapData s) id = kids id) →
     (∀ x, below kids c x → i_maps s !! x = None) →
     ∃ s', CreateBaseMap_i w fuel e s = Some (length (objects s), s') ∧
           created kids s c s') →
  (height + 1 - level r ≤ S fuel)%nat →
  (∀ x, below kids r x → i_maps st !! x = None) →
  ∀ rest done s, kids r = done ++ rest → attaching kids st r done s →
  ∃ s', attach_children w (CreateBaseMap_i w fuel) (length (objects st)) rest s
          = Some s' ∧
        attaching kids st r (kids r) s'.
Proof.
  intros IHf Hfuel Hpre. induction rest as [|c rest IH]; intros done s Hk Hs.
  { rewrite app_nil_r in Hk. rewrite Hk. by exists s. }
  assert (c ∈ kids r) as Hc by (rewrite Hk; set_solver).
  destruct (wf_kids _ _ _ _ Hwf r c Hc) as (e & He & Hp).
  pose proof (wf_level _ _ _ _ Hwf r c Hc) as Hlev.
  pose proof (wf_kids_NoDup _ _ _ _ Hwf r) as Hnd. rewrite Hk in Hnd.
  apply NoDup_app in Hnd as (_ & Hnd & _).
  destruct Hs as (HI0 & Hold & (o & Ho & Hid & Hch) & Hr & Hout & Hreg).
  assert (∀ c' x, c' ∈ done → below kids c x → ¬ below kids c' x) as Hsib.
  { intros c' x Hc' Hx Hx'. apply (siblings_disjoint r c c' x); try done.
    - rewrite Hk. set_solver.
    - intros ->. apply (Hnd c' Hc'). by left. }
  assert (∀ x, below kids c x → i_maps s !! x = None) as Hnone.
  { intros x Hx. destruct (Hout x) as [->|[(c' & Hc' & Hx')|Heq]].
    - by destruct (not_below_parent r c).
    - by destruct (Hsib c' x).
    - rewrite Heq. apply Hpre. by eapply below_kid. }
  destruct (IHf e s c He ltac:(lia) HI0 Hnone)
    as (s1 & Hc1 & (HI1 & Hold1 & Hout1 & Hreg1 & Hrc1)).
  cbn [attach_children]. unfold AssertEntry. rewrite He.
  cbn [mbind option_bind]. rewrite Hc1. cbn [mbind option_bind].
  apply (IH (done ++ [c])); [by rewrite <- app_assoc|].
  assert (length (objects st) < length (objects s))%nat as Ha
    by (by eapply lookup_lt_Some).
  split; [|split; [|split; [|split; [|split]]]]; simpl_st.
  - done.
  - intros i Hi. rewrite list_lookup_alter_ne by lia.
    rewrite Hold1 by lia. by apply Hold.
  - eexists. split; [|split].
    + rewrite list_lookup_alter. destruct (decide _); [|done].
      rewrite Hold1 by done. rewrite Ho. done.
    + done.
    + cbn [m_childTerrainMaps]. rewrite !fmap_app. cbn [fmap list_fmap].
      rewrite Hrc1. f_equal. rewrite <- Hch. apply list_fmap_ext.
      intros i c' Hi. destruct (Hout1 c') as [Hb|Heq]; [|done].
      exfalso. apply (Hsib c' c'); [by eapply list_elem_of_lookup_2|done|].
      apply rtc_refl.
  - destruct (Hout1 r) as [Hb|Heq]; [by destruct (not_below_parent r c)|].
    by rewrite Heq.
  - intros x. destruct (Hout1 x) as [Hb|Heq].
    + right; left. exists c. split; [set_solver|done].
    + destruct (Hout x) as [->|[(c' & Hc' & Hx')|Heq']]; [by left| |].
      * right; left. exists c'. split; [set_solver|done].
      * right; right. congruence.
  - intros c' x [Hc'| ->%list_elem_of_singleton]%elem_of_app Hx.
    + eapply (registered_from_frame _ _ s); [by eapply Hreg| | |].
      * destruct (Hout1 x) as [Hb|Heq]; [by destruct (Hsib c' x)|done].
      * intros k Hk'. destruct (Hout1 k) as [Hb|Heq]; [|done].
        destruct (Hsib c' k); [done|done|]. by eapply rtc_r.
      * intros ax ox Hax Hn Hox. split; [done|]. simpl_st.
        rewrite list_lookup_alter_ne by lia. apply Hold1.
        by eapply lookup_lt_Some.
    + eapply (registered_from_frame _ _ s1); [by eapply Hreg1|done|done|].
      intros ax ox Hax Hn Hox. split; [lia|]. simpl_st.
      by rewrite list_lookup_alter_ne by lia.
Qed.

(** Changing an object without touching its id and its children keeps what
    a creation established. *)
Lemma created_alter st r s (g : Map → Map) a :
  (∀ o, GetId (g o) = GetId o ∧ m_childTerrainMaps (g o) = m_childTerrainMaps o) →
  (length (objects st) ≤ a)%nat →
  created kids st r s → created kids st r (set_objects (alter g a) s).
Proof.
  intros Hg Ha (HI0 & Hold & Hout & Hreg & Hr).
  split; [|split; [|split; [|split]]]; simpl_st; try done.
  - intros i Hi. rewrite list_lookup_alter_ne by lia. by apply Hold.
  - intros x Hx. destruct (Hreg x Hx) as (ax & o & Hax & Hn & Ho & Hid & Hk).
    destruct (decide (a = ax)) as [->|Hne].
    + exists ax, (g o). destruct (Hg o) as [-> ->]. simpl_st.
      rewrite list_lookup_alter. destruct (decide _); [|done].
      rewrite Ho. done.
    + exists ax, o. simpl_st. by rewrite list_lookup_alter_ne.
Qed.

Lemma CreateBaseMap_i_spec fuel :
  ∀ e st r, sMapStore w !! r = Some e → (height + 1 - level r ≤ fuel)%nat →
    (∀ id, children_of (_parentMapData st) id = kids id) →
    (∀ x, below kids r x → i_maps st !! x = None) →
    ∃ st', CreateBaseMap_i w fuel e st = Some (length (objects st), st') ∧
           created kids st r st'.
Proof.
  induction fuel as [|fuel IHf]; intros e st r He Hfuel HI0 Hpre.
  { pose proof (wf_height _ _ _ _ Hwf r). lia. }
  pose proof (wf_ID _ _ _ _ Hwf r e He) as Hid.
  cbn [CreateBaseMap_i]. rewrite Hid. simpl_st. rewrite HI0.
  match goal with
  | |- context [attach_children _ _ _ _ ?s] => set (st3 := s)
  end.
  destruct (attach_children_spec fuel r st IHf Hfuel Hpre (kids r) [] st3)
    as (s' & Hat & Hs'); [done| |].
  { split; [|split; [|split; [|split; [|split]]]]; unfold st3; simpl_st.
    - intros id. rewrite <- (HI0 r). rewrite children_of_insert. apply HI0.
    - intros i Hi. by rewrite lookup_app_l.
    - eexists. split; [|split].
      + rewrite lookup_app_r by done. by rewrite Nat.sub_diag.
      + done.
      + done.
    - by rewrite lookup_insert_eq.
    - intros x. destruct (decide (x = r)) as [->|Hne]; [by left|].
      right; right. by rewrite lookup_insert_ne.
    - intros c x []%elem_of_nil. }
  rewrite Hat. cbn [mbind option_bind]. eexists. split; [done|].
  assert (created kids st r s') as Hcr.
  { destruct Hs' as (HI0' & Hold & (o & Ho & Hido & Hch) & Hr & Hout & Hreg).
    split; [|split; [|split; [|split]]]; try done.
    - intros x. destruct (Hout x) as [->|[(c & Hc & Hx)|Heq]].
      + left. apply rtc_refl.
      + left. by eapply below_kid.
      + by right.
    - intros x [->|(c & Hc & Hx)]%below_inv.
      + exists (length (objects st)), o. done.
      + eapply (registered_from_frame _ _ s'); [by eapply Hreg|done|done|].
        intros ax ox _ Hn _. split; [lia|done]. }
  destruct (Instanceable e); [done|].
  apply created_alter; [done|done|]. by apply created_alter.
Qed.

(** ** The invariant of the registry is kept *)

Lemma unregistered_below st r x :
  registry_inv w kids st → i_maps st !! r = None →
  below kids r x → i_maps st !! x = None.
Proof.
  intros Hinv Hr. revert x. apply rtc_ind_r; [done|].
  intros y x Hy Hxy IH.
  destruct (i_maps st !! x) as [ax|] eqn:Hx; [|done]. exfalso.
  destruct (wf_kids _ _ _ _ Hwf y x Hxy) as (e & He & Hp).
  destruct (inv_parent _ _ _ Hinv x e y) as [ay Hay]; [by eexists|done|done|].
  congruence.
Qed.

Lemma created_inv st r e st' :
  registry_inv w kids st →
  sMapStore w !! r = Some e → declared_parent e = None →
  i_maps st !! r = None → created kids st r st' →
  registry_inv w kids st' ∧
  (∀ x ax, i_maps st !! x = Some ax → i_maps st' !! x = Some ax).
Proof.
  intros Hinv He Hroot Hr (HI0 & Hold & Hout & Hreg & Hra).
  pose proof (unregistered_below st r) as Hnone.
  assert (∀ x ax, i_maps st !! x = Some ax → i_maps st' !! x = Some ax)
    as Hpersist.
  { intros x ax Hx. destruct (Hout x) as [Hb|Heq]; [|congruence].
    rewrite (Hnone x Hinv Hr Hb) in Hx. done. }
  assert (∀ x, is_Some (i_maps st !! x) → ¬ below kids r x) as Hnb.
  { intros x [ax Hx] Hb. rewrite (Hnone x Hinv Hr Hb) in Hx. done. }
  assert (∀ x k, ¬ below kids r x → k ∈ kids x → ¬ below kids r k) as Hkid.
  { intros x k Hx Hk [<-|(y & Hy & Hky)]%rtc_inv_r.
    - destruct (wf_kids _ _ _ _ Hwf x r Hk) as (e' & He' & Hp'). congruence.
    - assert (y = x) as -> by (by eapply kids_parent_unique). done. }
  split; [|done]. split.
  - done.
  - intros x [ax Hx]. destruct (Hout x) as [Hb|Heq].
    + destruct (Hreg x Hb) as (a & o & ? & ? & ? & ? & ?).
      exists a, o. repeat split; try done. lia.
    + rewrite Heq in Hx.
      eapply (registered_from_frame _ _ st);
        [apply (inv_registered _ _ _ Hinv); by eexists|done| |].
      * intros k Hk. destruct (Hout k) as [Hb|]; [|done].
        destruct (Hkid x k); [apply Hnb; by eexists|done|done].
      * intros a o Ha _ Ho. split; [lia|]. apply Hold.
        by eapply lookup_lt_Some.
  - intros x ex p [ax Hx] Hex Hp. destruct (Hout x) as [Hb|Heq].
    + apply rtc_inv_r in Hb as [<-|(y & Hy & Hxy)]; [congruence|].
      destruct (wf_kids _ _ _ _ Hwf y x Hxy) as (e' & He' & Hp').
      assert (p = y) as -> by congruence.
      destruct (Hreg y Hy) as (a & ? & Ha & _). by eexists.
    + rewrite Heq in Hx.
      destruct (inv_parent _ _ _ Hinv x ex p) as [ap Hap];
        [by eexists|done|done|].
      exists ap. by apply Hpersist.
Qed.

(** [CreateBaseMap] returns, with enough fuel, and keeps the invariant. *)
Lemma CreateBaseMap_spec fuel :
  ∀ id e st, registry_inv w kids st → sMapStore w !! id = Some e →
  (level id + height + 2 ≤ fuel)%nat →
  ∃ a st', CreateBaseMap w fuel id st = Some (a, st') ∧
           registry_inv w kids st' ∧
           i_maps st' !! id = Some a ∧
           (∀ x ax, i_maps st !! x = Some ax → i_maps st' !! x = Some ax).
Proof.
  induction fuel as [|fuel IH]; intros id e st Hinv He Hfuel; [lia|].
  destruct (i_maps st !! id) as [a|] eqn:Hid.
  { exists a, st. rewrite (CreateBaseMap_found _ _ _ _ _ Hid). done. }
  destruct (declared_parent e) as [p|] eqn:Hp.
  - rewrite (CreateBaseMap_child _ _ _ _ _ _ Hid He Hp).
    destruct (wf_parent _ _ _ _ Hwf id e p He Hp) as [[ep Hep] Hkid].
    pose proof (wf_level _ _ _ _ Hwf p id Hkid).
    destruct (IH p ep st Hinv Hep ltac:(lia))
      as (ap & st' & Hc & Hinv' & Hap & Hpers).
    rewrite Hc. cbn [mbind option_bind].
    destruct (registered_kid st' p id Hinv' ltac:(by eexists) Hkid)
      as (ap' & aid & _ & Haid & _).
    unfold FindBaseMap. rewrite Haid. cbn [mbind option_bind].
    exists aid, st'. done.
  - rewrite (CreateBaseMap_root _ _ _ _ _ Hid He Hp).
    destruct (CreateBaseMap_i_spec fuel e st id He ltac:(lia)
                (inv_kids _ _ _ Hinv)) as (st' & Hc & Hcr).
    { intros x. by apply unregistered_below. }
    destruct (created_inv st id e st' Hinv He Hp Hid Hcr) as [Hinv' Hpers].
    exists (length (objects st)), st'. split; [done|]. split; [done|].
    split; [by destruct Hcr as (_ & _ & _ & _ & ?)|done].
Qed.

(** C9: two successive calls of [CreateBaseMap] on the same id return the
    same object, and the second call leaves the manager as the first one
    left it, so that it creates nothing. *)
Theorem CreateBaseMap_idempotent st id e fuel :
  registry_inv w kids st → sMapStore w !! id = Some e →
  (2 * height + 2 ≤ fuel)%nat →
  ∃ map st', CreateBaseMap w fuel id st = Some (map, st') ∧
             CreateBaseMap w fuel id st' = Some (map, st').
Proof.
  intros Hinv He Hfuel. pose proof (wf_height _ _ _ _ Hwf id).
  destruct (CreateBaseMap_spec fuel id e st Hinv He ltac:(lia))
    as (a & st' & Hc & _ & Ha & _).
  exists a, st'. split; [done|]. by apply CreateBaseMap_found.
Qed.

(** C8: for a definition [D] that declares the parent [P], [CreateBaseMap D]
    goes through [CreateBaseMap P] and takes the object of [D] from the
    registry; that object is attached exactly once to the object of [P];
    calling with [D] first or with [P] first ends in the same state, which
    further calls leave as it is; and [D] never takes the branch of a
    root. *)
Theorem child_created_through_parent st D eD P fuel :
  registry_inv w kids st →
  sMapStore w !! D = Some eD → declared_parent eD = Some P →
  (2 * height + 3 ≤ fuel)%nat →
  ∃ mapD mapP st',
    CreateBaseMap w fuel D st = Some (mapD, st') ∧
    CreateBaseMap w fuel P st = Some (mapP, st') ∧
    CreateBaseMap w fuel D st' = Some (mapD, st') ∧
    CreateBaseMap w fuel P st' = Some (mapP, st') ∧
    i_maps st' !! D = Some mapD ∧ i_maps st' !! P = Some mapP ∧
    attached_once st' mapP mapD ∧
    registry_inv w kids st' ∧
    ∀ f s, i_maps s !! D = None →
      CreateBaseMap w (S f) D s =
        '(_, s1) ← CreateBaseMap w f P s;
        map ← FindBaseMap D s1; Some (map, s1).
Proof.
  intros Hinv He Hp Hfuel.
  destruct (wf_parent _ _ _ _ Hwf D eD P He Hp) as [[eP HeP] Hkid].
  pose proof (wf_level _ _ _ _ Hwf P D Hkid) as Hlev.
  pose proof (wf_height _ _ _ _ Hwf D) as HhD.
  assert (∀ f s, i_maps s !! D = None →
      CreateBaseMap w (S f) D s =
        '(_, s1) ← CreateBaseMap w f P s;
        map ← FindBaseMap D s1; Some (map, s1)) as Hbranch.
  { intros f s Hs. by apply (CreateBaseMap_child w f D s eD P). }
  destruct (i_maps st !! D) as [aD|] eqn:HD.
  - destruct (inv_parent _ _ _ Hinv D eD P) as [aP HP]; [by eexists|done..|].
    destruct (registered_kid st P D Hinv ltac:(by eexists) Hkid)
      as (aP' & aD' & HP' & HD' & Hatt).
    assert (aP' = aP) as -> by congruence.
    assert (aD' = aD) as -> by congruence.
    exists aD, aP, st.
    rewrite !(CreateBaseMap_found _ _ _ _ _ HD).
    rewrite !(CreateBaseMap_found _ _ _ _ _ HP). done.
  - destruct fuel as [|f]; [lia|].
    destruct (CreateBaseMap_spec f P eP st Hinv HeP ltac:(lia))
      as (aP & st' & Hc & Hinv' & HP & _).
    destruct (registered_kid st' P D Hinv' ltac:(by eexists) Hkid)
      as (aP' & aD & HP' & HD' & Hatt).
    assert (aP' = aP) as -> by congruence.
    exists aD, aP, st'.
    split; [|split; [|split; [|split; [|split; [|split; [|split; [|split]]]]]]];
      try done.
    + rewrite (Hbranch f st HD), Hc. cbn [mbind option_bind].
      unfold FindBaseMap. by rewrite HD'.
    + eapply CreateBaseMap_mono; [|exact Hc]. lia.
    + by apply CreateBaseMap_found.
    + by apply CreateBaseMap_found.
Qed.

End Forest.

(** The registry is in its invariant before the first map is created. *)
Lemma registry_inv_init w mapData st :
  i_maps st = ∅ →
  registry_inv w (children_of mapData) (InitializeParentMapData mapData st).
Proof.
  intros Hempty. split; simpl.
  - done.
  - intros x [a Ha]. rewrite Hempty in Ha. done.
  - intros x e p [a Ha]. rewrite Hempty in Ha. done.
Qed.

(** C4, as the code has it: for a registered base map that is not
    instanceable, [CreateMap] returns the base map whatever instance id the
    caller passes, and changes nothing; [FindMap] returns the base map for
    the instance id 0 and nothing for every other instance id. *)
Theorem non_instanceable_resolution w st id map :
  FindBaseMap id st = Some map → Map_Instanceable map st = false →
  (∀ fuel player loginInstanceId,
     CreateMap w fuel id player loginInstanceId st = Some (Some map, st)) ∧
  FindMap w id 0 st = Some map ∧
  (∀ instanceId, instanceId ≠ 0 → FindMap w id instanceId st = None).
Proof.
  intros Hm Hi. split; [|split].
  - intros fuel player loginInstanceId. unfold CreateMap.
    rewrite (CreateBaseMap_found w fuel id st map Hm).
    cbn [mbind option_bind]. by rewrite Hi.
  - unfold FindMap. by rewrite Hm, Hi.
  - intros instanceId Hne. unfold FindMap. rewrite Hm, Hi. simpl.
    by destruct (Z.eqb_spec instanceId 0).
Qed.


(** ** The end-to-end scenario *)

Import Samples.

Lemma terrain_wf :
  wf_data terrain_world (children_of terrain_mapData) terrain_level 1.
Proof.
  assert (∀ p, children_of terrain_mapData p =
               if decide (p = 1) then [2] else []) as Hkids.
  { intros p. unfold children_of, terrain_mapData.
    destruct (decide (p = 1)) as [->|Hne].
    - by rewrite lookup_singleton_eq.
    - by rewrite lookup_singleton_ne. }
  split.
  - intros id e H. cbn [sMapStore terrain_world] in H.
    repeat (apply lookup_insert_Some in H as [[<- <-]|[? H]]; [done|]).
    by rewrite lookup_empty in H.
  - intros id e p H. cbn [sMapStore terrain_world] in H.
    repeat (apply lookup_insert_Some in H as [[<- <-]|[? H]];
            [try discriminate|]).
    + intros [= <-]. split; [by eexists|]. rewrite Hkids. set_solver.
    + by rewrite lookup_empty in H.
  - intros p c. rewrite Hkids. destruct (decide (p = 1)) as [->|Hne].
    + intros ->%list_elem_of_singleton. by eexists.
    + by intros ?%elem_of_nil.
  - intros p. rewrite Hkids. destruct (decide (p = 1)).
    + apply NoDup_singleton.
    + apply NoDup_nil_2.
  - intros p c. rewrite Hkids. destruct (decide (p = 1)) as [->|Hne].
    + intros ->%list_elem_of_singleton. unfold terrain_level. simpl. lia.
    + by intros ?%elem_of_nil.
  - intros id. unfold terrain_level. destruct (id =? 2); lia.
Qed.

Lemma CreateBaseMap_idempotent_witness :
  ∃ map st', CreateBaseMap terrain_world 5 2 terrain_maps = Some (map, st') ∧
             CreateBaseMap terrain_world 5 2 st' = Some (map, st').
Proof.
  apply (CreateBaseMap_idempotent terrain_world (children_of terrain_mapData)
           terrain_level 1 terrain_wf terrain_maps 2 (terrain_entry 2 1 false) 5).
  - by apply registry_inv_init.
  - reflexivity.
  - lia.
Defined.

Lemma child_created_through_parent_witness :
  ∃ mapD mapP st',
    CreateBaseMap terrain_world 5 2 terrain_maps = Some (mapD, st') ∧
    CreateBaseMap terrain_world 5 1 terrain_maps = Some (mapP, st') ∧
    CreateBaseMap terrain_world 5 2 st' = Some (mapD, st') ∧
    CreateBaseMap terrain_world 5 1 st' = Some (mapP, st') ∧
    i_maps st' !! 2 = Some mapD ∧ i_maps st' !! 1 = Some mapP ∧
    attached_once st' mapP mapD ∧
    registry_inv terrain_world (children_of terrain_mapData) st' ∧
    ∀ f s, i_maps s !! 2 = None →
      CreateBaseMap terrain_world (S f) 2 s =
        '(_, s1) ← CreateBaseMap terrain_world f 1 s;
        map ← FindBaseMap 2 s1; Some (map, s1).
Proof.
  apply (child_created_through_parent terrain_world
           (children_of terrain_mapData) terrain_level 1 terrain_wf
           terrain_maps 2 (terrain_entry 2 1 false) 1 5).
  - by apply registry_inv_init.
  - reflexivity.
  - reflexivity.
  - lia.
Defined.

(** The scenario itself: creating map 2 creates map 1 as well, with the
    object of 2 as the only child of the object of 1. *)
Example terrain_created :
  CreateBaseMap terrain_world 5 2 terrain_maps = Some (1%nat, terrain_maps_created).
Proof. vm_compute. reflexivity. Qed.

Lemma non_instanceable_resolution_witness :
  (∀ fuel player loginInstanceId,
     CreateMap terrain_world fuel 1 player loginInstanceId terrain_maps_created
       = Some (Some 0%nat, terrain_maps_created)) ∧
  FindMap terrain_world 1 0 terrain_maps_created = Some 0%nat ∧
  (∀ instanceId, instanceId ≠ 0 →
     FindMap terrain_world 1 instanceId terrain_maps_created = None).
Proof.
  apply (non_instanceable_resolution terrain_world terrain_maps_created 1 0%nat).
  - reflexivity.
  - reflexivity.
Defined.

(** C4 as stated fails: for the map 1, which is not instanceable, and the
    instance id 7, [CreateMap] returns the base map, not "not found". *)
Lemma CreateMap_ignores_instance_id :
  FindBaseMap 1 terrain_maps_created = Some 0%nat ∧
  Map_Instanceable 0%nat terrain_maps_created = false ∧
  CreateMap terrain_world 5 1 (ghost 0) 7 terrain_maps_created
    = Some (Some 0%nat, terrain_maps_created) ∧
  CreateMap terrain_world 5 1 (ghost 0) 7 terrain_maps
    = Some (Some 0%nat, terrain_maps_created).
Proof. repeat split; vm_compute; reflexivity. Qed.

End MapsFacts.

(** * Further properties of the instance-id allocator *)

Module InstanceIdsMore.
Import InstanceIds InstanceIdsFacts.

Lemma outstanding_inv s l :
  outstanding s l →
  cursor_nonzero s ∧ cursor_least_free s ∧
  ∀ x, x ∈ l → 0 < x ∧ _freeInstanceIds s !! Z.to_nat x = Some false.
Proof.
  induction 1 as [s last l Hs Hl|s l i s' _ IH Hne Hg|s l x s' _ IH Hx Hf].
  - destruct (started_inv s last Hs) as (? & ? & _). done.
  - destruct IH as (Hnz & Hlf & Hl).
    pose proof (Generate_cursor_nonzero _ _ _ Hnz Hg) as [Hnz' _].
    pose proof (Generate_cursor_least_free _ _ _ Hnz Hlf Hg) as Hlf'.
    split; [done|]. split; [done|].
    apply (Generate_normal s i s' Hne) in Hg as (-> & Hv & _ & Hg).
    assert (∀ x, x ∈ _nextInstanceId s :: l →
              0 < x ∧ <[Z.to_nat (_nextInstanceId s) := false]>
                        (_freeInstanceIds s) !! Z.to_nat x = Some false) as Hl'.
    { intros x [->|Hx]%elem_of_cons.
      - destruct Hnz as [? _]. split; [lia|].
        apply list_lookup_insert_eq. lia.
      - destruct (Hl x Hx) as [Hx0 Hxb]. split; [done|].
        destruct (decide (Z.to_nat (_nextInstanceId s) = Z.to_nat x)) as [->|].
        + apply list_lookup_insert_eq. by eapply lookup_lt_Some.
        + by rewrite list_lookup_insert_ne. }
    intros x Hx. destruct (Hl' x Hx) as [Hx0 Hxb]. split; [done|].
    destruct Hg as [(k & _ & _ & ->)|(_ & _ & ->)]; [done|].
    rewrite lookup_app_l; [done|]. by eapply lookup_lt_Some.
  - destruct IH as (Hnz & Hlf & Hl). destruct (Hl x Hx) as [Hx0 _].
    split; [by eapply Free_cursor_nonzero|].
    split; [eapply Free_cursor_least_free; [|done..]; destruct Hnz; lia|].
    apply Free_Some in Hf as (_ & _ & ->).
    intros y [Hy Hyl]%list_elem_of_filter. destruct (Hl y Hyl) as [Hy0 Hyb].
    split; [done|]. rewrite list_lookup_insert_ne by lia. done.
Qed.

(** X1: while identifiers are in use (marked used at start-up, or returned
    by [Allocate] outside the overflow branch and not released since), an
    [Allocate] outside the overflow branch returns: it returns an identifier
    that was free and is none of those in use. *)
Theorem allocate_avoids_ids_in_use s l :
  outstanding s l → _nextInstanceId s ≠ UINT32_MAX →
  ∃ i s', GenerateInstanceId s = Some (i, s') ∧
          (i ∉ l) ∧ is_free s i ∧ ¬ is_free s' i ∧ outstanding s' (i :: l).
Proof.
  intros Ho Hne. destruct (outstanding_inv s l Ho) as ([Hn _] & [Hfree _] & Hl).
  destruct (Generate_is_Some s) as [s' Hg].
  { apply lookup_lt_Some in Hfree. lia. }
  exists (_nextInstanceId s), s'. split; [done|].
  pose proof (out_alloc s l _ s' Ho Hne Hg) as Ho'.
  split; [|split; [|split]]; try done.
  - intros Hin. destruct (Hl _ Hin) as [_ Hb]. congruence.
  - split; [lia|done].
  - intros [_ Hf']. destruct (outstanding_inv _ _ Ho') as (_ & _ & Hl').
    destruct (Hl' (_nextInstanceId s)) as [_ Hb]; [by left|]. congruence.
Qed.

Lemma allocate_avoids_ids_in_use_witness :
  let s := mk 3 [false; false; false; true; true; true] false in
  ∃ i s', GenerateInstanceId s = Some (i, s') ∧
          (i ∉ [2; 1]) ∧ is_free s i ∧ ¬ is_free s' i ∧
          outstanding s' (i :: [2; 1]).
Proof.
  apply (allocate_avoids_ids_in_use _ [2; 1]); [|discriminate].
  apply (out_alloc (mk 2 [false; false; true; true; true; true] false) [1]);
    [|discriminate|reflexivity].
  apply (out_start _ 1).
  - apply (started_register (mk 1 [false; true; true; true; true; true] false) 0 1);
      [|unfold UINT32_MAX; lia|simpl; lia|reflexivity].
    apply (started_init (Some 4)); [|reflexivity].
    intros maxId [= <-]. lia.
  - intros x ->%list_elem_of_singleton. split; [lia|reflexivity].
Defined.

Lemma step_length op s s' r :
  (∀ q, op ≠ Initialize q) → step op s = Some (s', r) →
  (length (_freeInstanceIds s) ≤ length (_freeInstanceIds s')
   ≤ length (_freeInstanceIds s) + length r)%nat.
Proof.
  intros Hop. destruct op as [q|i| |i]; simpl.
  - by destruct (Hop q).
  - unfold RegisterInstanceId. destruct (valid_index _ _); [|done].
    intros [= <- <-]. simpl. rewrite length_insert. lia.
  - destruct (GenerateInstanceId s) as [[i s1]|] eqn:Hg; [|done]. simpl.
    intros [= <- <-]. simpl.
    destruct (decide (_nextInstanceId s = UINT32_MAX)) as [E|E].
    + rewrite (Generate_overflow s E) in Hg. injection Hg as _ <-. simpl. lia.
    + apply (Generate_normal s i s1 E) in Hg as (_ & _ & _ & Hg).
      destruct Hg as [(k & _ & _ & ->)|(_ & _ & ->)].
      * rewrite length_insert. lia.
      * rewrite length_app, length_insert. simpl. lia.
  - destruct (FreeInstanceId i s) as [s1|] eqn:Hf; [|done]. simpl.
    intros [= <- <-]. apply Free_Some in Hf as (_ & _ & ->).
    rewrite length_insert. simpl. lia.
Qed.

(** X2: [Reserve], [Allocate] and [Release] never shrink the table, and the
    table grows by at most one slot for every [Allocate]. *)
Theorem table_only_grows ops s s' ids :
  Forall (λ op, ∀ q, op ≠ Initialize q) ops →
  run ops s = Some (s', ids) →
  (length (_freeInstanceIds s) ≤ length (_freeInstanceIds s')
   ≤ length (_freeInstanceIds s) + length ids)%nat.
Proof.
  revert s s' ids. induction ops as [|op ops IH]; intros s s' ids Hok; simpl.
  - intros [= <- <-]. simpl. lia.
  - apply Forall_cons in Hok as [Hop Hok].
    destruct (step op s) as [[s1 r1]|] eqn:Hstep; [|done]. simpl.
    destruct (run ops s1) as [[s2 r2]|] eqn:Hrun; [|done]. simpl.
    intros [= <- <-]. pose proof (step_length _ _ _ _ Hop Hstep).
    pose proof (IH _ _ _ Hok Hrun). rewrite length_app. lia.
Qed.

Lemma table_only_grows_witness :
  (length (_freeInstanceIds (mk 1 [false; true] false))
   ≤ length (_freeInstanceIds (mk 2 [false; false; true; false; true] false))
   ≤ length (_freeInstanceIds (mk 1 [false; true] false))
     + length [1; 2; 3]%Z)%nat.
Proof.
  apply (table_only_grows [Allocate; Allocate; Allocate; Release 2; Reserve 1]).
  - repeat first [apply Forall_nil | apply Forall_cons_2];
      first [exact I | intros q; discriminate].
  - reflexivity.
Defined.

(** X3: once the cursor is 0xFFFFFFFF, every further [Allocate] returns
    0xFFFFFFFF, raises the stop flag and leaves cursor and table as they
    are. *)
Theorem overflow_is_sticky s n :
  _nextInstanceId s = UINT32_MAX →
  alloc_n (S n) s =
    Some (replicate (S n) UINT32_MAX, mk UINT32_MAX (_freeInstanceIds s) true).
Proof.
  intros Hs. revert s Hs. induction n as [|n IH]; intros s Hs.
  - cbn [alloc_n]. rewrite (Generate_overflow s Hs). done.
  - change (alloc_n (S (S n)) s) with
      ('(i, s1) ← GenerateInstanceId s;
       '(r, s2) ← alloc_n (S n) s1; Some (i :: r, s2)).
    rewrite (Generate_overflow s Hs). cbn [mbind option_bind].
    rewrite (IH (mk UINT32_MAX (_freeInstanceIds s) true) eq_refl). done.
Qed.

Lemma overflow_is_sticky_witness :
  alloc_n 3 (mk UINT32_MAX [false; true] false) =
    Some (replicate 3 UINT32_MAX, mk UINT32_MAX [false; true] true).
Proof. apply (overflow_is_sticky (mk UINT32_MAX [false; true] false) 2). reflexivity. Defined.



(** X5: releasing two identifiers gives the same state in either order, and
    releasing an identifier twice is the same as releasing it once. *)
Theorem release_commutes s x y :
  (FreeInstanceId x s ≫= FreeInstanceId y) =
  (FreeInstanceId y s ≫= FreeInstanceId x) ∧
  (FreeInstanceId x s ≫= FreeInstanceId x) = FreeInstanceId x s.
Proof.
  unfold FreeInstanceId.
  destruct (valid_index x (_freeInstanceIds s)) eqn:Hx;
    destruct (valid_index y (_freeInstanceIds s)) eqn:Hy; simpl;
    rewrite ?length_insert_valid; unfold valid_index in *; simpl;
    rewrite ?length_insert, ?Hx, ?Hy; simpl; split; try done.
  - f_equal. f_equal.
    + lia.
    + destruct (decide (Z.to_nat x = Z.to_nat y)) as [->|Hne]; [done|].
      by apply list_insert_insert_ne.
  - f_equal. f_equal.
    + lia.
    + apply list_insert_insert_eq.
  - f_equal. f_equal.
    + lia.
    + apply list_insert_insert_eq.
Qed.




End InstanceIdsMore.

(** * Further properties of the admission check *)

Module AdmissionMore.
Import Maps Admission AdmissionFacts Samples.

(** X7: a definition that is not a dungeon admits everybody, whatever the
    state of the player and of the manager. *)
Theorem non_dungeon_always_admitted w st fuel mapid player loginCheck entry :
  LookupEntry w mapid = Some entry → IsDungeon entry = false →
  PlayerCannotEnter w st fuel mapid player loginCheck = Some CAN_ENTER.
Proof. intros He Hd. unfold PlayerCannotEnter. by rewrite He, Hd. Qed.

Lemma non_dungeon_always_admitted_witness :
  PlayerCannotEnter terrain_world terrain_maps 0 1 released_spirit false
    = Some CAN_ENTER.
Proof.
  apply (non_dungeon_always_admitted terrain_world terrain_maps 0 1
           released_spirit false (terrain_entry 1 (-1) false));
    reflexivity.
Defined.

(** X8: a map that [IsValidMAP] rejects at run time is closed to everybody,
    game masters included: the admission check answers "no entry" or
    "uninstanced dungeon" before it looks at the player. *)
Theorem invalid_map_admits_nobody w st fuel mapid player loginCheck :
  IsValidMAP w mapid false = false →
  PlayerCannotEnter w st fuel mapid player loginCheck = Some CANNOT_ENTER_NO_ENTRY ∨
  PlayerCannotEnter w st fuel mapid player loginCheck
    = Some CANNOT_ENTER_UNINSTANCED_DUNGEON.
Proof.
  unfold IsValidMAP, PlayerCannotEnter.
  destruct (LookupEntry w mapid) as [e|]; [|by left].
  destruct (IsDungeon e); simpl; [|done].
  destruct (GetInstanceTemplate w mapid); [done|by right].
Qed.

Lemma invalid_map_admits_nobody_witness :
  PlayerCannotEnter sample_world sample_maps 0 35 dead_game_master false
    = Some CANNOT_ENTER_NO_ENTRY ∨
  PlayerCannotEnter sample_world sample_maps 0 35 dead_game_master false
    = Some CANNOT_ENTER_UNINSTANCED_DUNGEON.
Proof.
  apply (invalid_map_admits_nobody sample_world sample_maps 0 35
           dead_game_master false).
  reflexivity.
Defined.

(** The manager's own verdict for an evaluation that has passed the rules on
    the static data and the game-master bypass. *)
Lemma PlayerCannotEnter_cases w st fuel mapid player loginCheck r :
  PlayerCannotEnter w st fuel mapid player loginCheck = Some r →
  (LookupEntry w mapid = None ∧ r = CANNOT_ENTER_NO_ENTRY) ∨
  ∃ entry, LookupEntry w mapid = Some entry ∧
    ((IsDungeon entry = false ∧ r = CAN_ENTER) ∨
     (IsDungeon entry = true ∧ GetInstanceTemplate w mapid = None ∧
      r = CANNOT_ENTER_UNINSTANCED_DUNGEON) ∨
     (IsDungeon entry = true ∧ is_Some (GetInstanceTemplate w mapid) ∧
      ((GetDownscaledMapDifficultyData w mapid (GetDifficultyID player entry)
          = None ∧ r = CANNOT_ENTER_DIFFICULTY_UNAVAILABLE) ∨
       ∃ targetDifficulty,
         GetDownscaledMapDifficultyData w mapid (GetDifficultyID player entry)
           = Some targetDifficulty ∧
         ((IsGameMaster player = true ∧ r = CAN_ENTER) ∨
          (IsGameMaster player = false ∧
           ((Satisfy player (GetAccessRequirement w mapid targetDifficulty)
               mapid true = false ∧ r = CANNOT_ENTER_UNSPECIFIED_REASON) ∨
            (Satisfy player (GetAccessRequirement w mapid targetDifficulty)
               mapid true = true ∧
             ((not_in_raid w entry player = true ∧
               r = CANNOT_ENTER_NOT_IN_RAID) ∨
              (not_in_raid w entry player = false ∧
               ((IsAlive player = false ∧ HasCorpse player = true ∧
                 r = CANNOT_ENTER_CORPSE_IN_DIFFERENT_INSTANCE) ∨
                r = after_corpse_check w st mapid entry player loginCheck)))))))))).
Proof.
  unfold PlayerCannotEnter.
  destruct (LookupEntry w mapid) as [e|]; [|intros [= <-]; by left].
  intros H. right. exists e. split; [done|].
  destruct (IsDungeon e); simpl in H; [|injection H as <-; by left].
  right. destruct (GetInstanceTemplate w mapid) as [tmpl|];
    [|injection H as <-; by left].
  right. split; [done|]. split; [by eexists|].
  destruct (GetDownscaledMapDifficultyData _ _ _) as [diff|];
    [|injection H as <-; by left].
  right. exists diff. split; [done|].
  destruct (IsGameMaster player); [injection H as <-; by left|].
  right. split; [done|].
  destruct (Satisfy player _ _ _); simpl in H; [|injection H as <-; by left].
  right. split; [done|].
  destruct (not_in_raid w e player); [injection H as <-; by left|].
  right. split; [done|].
  destruct (IsAlive player); simpl in H; [injection H as <-; by right|].
  destruct (HasCorpse player); [|injection H as <-; by right].
  destruct (corpse_walk _ _ _ _) as [c|]; simpl in H; [|done].
  destruct (c =? 0); injection H as <-; [by left|by right].
Qed.

(** X9: "too many instances" is the manager's own answer only for a player
    who is not dead, is in no dungeon-finder group and fails the count of
    recent instances; in every other case it is what the map the group is
    bound to answered. *)
Theorem too_many_instances_only_for_living w st fuel mapid player loginCheck :
  PlayerCannotEnter w st fuel mapid player loginCheck
    = Some CANNOT_ENTER_TOO_MANY_INSTANCES →
  ∃ entry, LookupEntry w mapid = Some entry ∧
    (bound_instance_check w st mapid entry player loginCheck
       = Some CANNOT_ENTER_TOO_MANY_INSTANCES ∨
     (isDead player = false ∧
      match GetGroup player with
      | Some group => isLFGGroup group = false
      | None => True
      end ∧
      CheckInstanceCount player
        (match GetInstanceSave player mapid with
         | Some sv => GetInstanceId sv
         | None => 0
         end) = false)).
Proof.
  intros H. apply PlayerCannotEnter_cases in H.
  destruct H as [[_ ?]|(e & He & H)]; [done|]. exists e. split; [done|].
  destruct H as [[_ ?]|[(_ & _ & ?)|(_ & _ & H)]]; [done..|].
  destruct H as [[_ ?]|(diff & _ & H)]; [done|].
  destruct H as [[_ ?]|(_ & H)]; [done|].
  destruct H as [[_ ?]|(_ & H)]; [done|].
  destruct H as [[_ ?]|(_ & H)]; [done|].
  destruct H as [(_ & _ & ?)|H]; [done|].
  unfold after_corpse_check in H.
  destruct (bound_instance_check _ _ _ _ _ _) as [d|]; [left; by f_equal|].
  right. unfold instance_count_check in H.
  destruct (IsDungeon e); simpl in H; [|done].
  destruct (GetGroup player) as [g|]; simpl in H.
  - destruct (isLFGGroup g); simpl in H; [done|].
    destruct (CheckInstanceCount _ _); simpl in H; [done|].
    destruct (isDead player); simpl in H; done.
  - destruct (CheckInstanceCount _ _); simpl in H; [done|].
    destruct (isDead player); simpl in H; done.
Qed.

Lemma too_many_instances_only_for_living_witness :
  ∃ entry, LookupEntry sample_world 0 = Some entry ∧
    (bound_instance_check sample_world sample_maps 0 entry living_over_cap false
       = Some CANNOT_ENTER_TOO_MANY_INSTANCES ∨
     (isDead living_over_cap = false ∧
      match GetGroup living_over_cap with
      | Some group => isLFGGroup group = false
      | None => True
      end ∧
      CheckInstanceCount living_over_cap
        (match GetInstanceSave living_over_cap 0 with
         | Some sv => GetInstanceId sv
         | None => 0
         end) = false)).
Proof.
  apply (too_many_instances_only_for_living sample_world sample_maps 1 0
           living_over_cap false).
  vm_compute. reflexivity.
Defined.

(** X10: "not in raid" is the manager's own answer only when the raid rule
    applies (a raid of the active expansion or a later one, no raid group,
    no waiver); otherwise it is what the bound map answered. *)
Theorem not_in_raid_only_by_raid_rule w st fuel mapid player loginCheck :
  PlayerCannotEnter w st fuel mapid player loginCheck
    = Some CANNOT_ENTER_NOT_IN_RAID →
  ∃ entry, LookupEntry w mapid = Some entry ∧
    (bound_instance_check w st mapid entry player loginCheck
       = Some CANNOT_ENTER_NOT_IN_RAID ∨
     (IsRaid entry = true ∧ CONFIG_EXPANSION w ≤ Expansion entry ∧
      CONFIG_INSTANCE_IGNORE_RAID w = false ∧
      match GetGroup player with
      | Some group => isRaidGroup group = false
      | None => True
      end)).
Proof.
  intros H. apply PlayerCannotEnter_cases in H.
  destruct H as [[_ ?]|(e & He & H)]; [done|]. exists e. split; [done|].
  destruct H as [[_ ?]|[(_ & _ & ?)|(_ & _ & H)]]; [done..|].
  destruct H as [[_ ?]|(diff & _ & H)]; [done|].
  destruct H as [[_ ?]|(_ & H)]; [done|].
  destruct H as [[_ ?]|(_ & H)]; [done|].
  destruct H as [[Hraid _]|(_ & H)].
  - right. unfold not_in_raid in Hraid.
    destruct (IsRaid e); simpl in Hraid; [|done].
    destruct (Z.leb_spec (CONFIG_EXPANSION w) (Expansion e)); simpl in Hraid;
      [|done].
    destruct (CONFIG_INSTANCE_IGNORE_RAID w);
      [by rewrite andb_false_r in Hraid|].
    destruct (GetGroup player) as [g|]; [|done].
    by destruct (isRaidGroup g).
  - destruct H as [(_ & _ & ?)|H]; [done|].
    unfold after_corpse_check in H.
    destruct (bound_instance_check _ _ _ _ _ _) as [d|]; [left; by f_equal|].
    unfold instance_count_check in H.
    destruct (_ && _) in H; [|done]. by destruct (_ && _) in H.
Qed.

Lemma not_in_raid_only_by_raid_rule_witness :
  ∃ entry, LookupEntry raid_world 9 = Some entry ∧
    (bound_instance_check raid_world sample_maps 9 entry living_over_cap false
       = Some CANNOT_ENTER_NOT_IN_RAID ∨
     (IsRaid entry = true ∧ CONFIG_EXPANSION raid_world ≤ Expansion entry ∧
      CONFIG_INSTANCE_IGNORE_RAID raid_world = false ∧
      match GetGroup living_over_cap with
      | Some group => isRaidGroup group = false
      | None => True
      end)).
Proof.
  apply (not_in_raid_only_by_raid_rule raid_world sample_maps 1 9
           living_over_cap false).
  vm_compute. reflexivity.
Defined.

Lemma corpse_walk_ext w1 w2 fuel mapid :
  (∀ id, GetInstanceTemplate w1 id = GetInstanceTemplate w2 id) →
  ∀ start, corpse_walk w1 fuel mapid start = corpse_walk w2 fuel mapid start.
Proof.
  intros Ht. induction fuel as [|fuel IH]; intros start; simpl; [done|].
  rewrite Ht. destruct (start =? mapid); [done|].
  destruct (_ =? 0); [done|]. apply IH.
Qed.

(** X11: on a login attempt the decision depends neither on the registry of
    maps nor on what any map would answer: two managers and two worlds with
    the same static data and configuration decide alike. *)
Theorem login_ignores_bound_instance w1 w2 st1 st2 fuel mapid player :
  sMapStore w1 = sMapStore w2 →
  (∀ id, GetInstanceTemplate w1 id = GetInstanceTemplate w2 id) →
  (∀ id d, GetDownscaledMapDifficultyData w1 id d
           = GetDownscaledMapDifficultyData w2 id d) →
  (∀ id d, GetAccessRequirement w1 id d = GetAccessRequirement w2 id d) →
  CONFIG_EXPANSION w1 = CONFIG_EXPANSION w2 →
  CONFIG_INSTANCE_IGNORE_RAID w1 = CONFIG_INSTANCE_IGNORE_RAID w2 →
  PlayerCannotEnter w1 st1 fuel mapid player true
  = PlayerCannotEnter w2 st2 fuel mapid player true.
Proof.
  intros Hs Ht Hd Ha He Hi.
  assert (∀ e, after_corpse_check w1 st1 mapid e player true
               = after_corpse_check w2 st2 mapid e player true) as Hafter.
  { intros e. unfold after_corpse_check, bound_instance_check.
    by destruct (GetGroup player). }
  unfold PlayerCannotEnter, LookupEntry, not_in_raid.
  rewrite Hs, Ht, He, Hi. destruct (sMapStore w2 !! mapid) as [e|]; [|done].
  destruct (IsDungeon e); simpl; [|done].
  destruct (GetInstanceTemplate w2 mapid); [|done].
  rewrite Hd. destruct (GetDownscaledMapDifficultyData w2 mapid _); [|done].
  rewrite Ha, Hafter, (corpse_walk_ext w1 w2 fuel mapid Ht). done.
Qed.

Lemma login_ignores_bound_instance_witness :
  PlayerCannotEnter sample_world sample_maps 3 33 (ghost 34) true
  = PlayerCannotEnter sample_world terrain_maps_created 3 33 (ghost 34) true.
Proof.
  apply (login_ignores_bound_instance sample_world sample_world sample_maps
           terrain_maps_created 3 33 (ghost 34)); reflexivity.
Defined.

Lemma corpse_walk_ranked w (rank : Z → nat) mapid :
  (∀ m tmpl, GetInstanceTemplate w m = Some tmpl → Parent tmpl ≠ 0 →
             (rank (Parent tmpl) < rank m)%nat) →
  ∀ fuel start, (rank start < fuel)%nat →
  is_Some (corpse_walk w fuel mapid start).
Proof.
  intros Hrank. induction fuel as [|fuel IH]; intros start Hlt; [lia|].
  simpl. destruct (start =? mapid); [by eexists|].
  destruct (GetInstanceTemplate w start) as [tmpl|] eqn:Ht; [|by eexists].
  destruct (Z.eqb_spec (Parent tmpl) 0) as [|Hne]; [by eexists|].
  apply IH. pose proof (Hrank _ _ Ht Hne). lia.
Qed.

(** X12: when the parent links of the instance templates are acyclic, that
    is when they go down some rank, the admission check returns for every
    input, given as many rounds as the rank of the corpse's map plus one. *)
Theorem PlayerCannotEnter_returns w (rank : Z → nat) st fuel mapid player loginCheck :
  (∀ m tmpl, GetInstanceTemplate w m = Some tmpl → Parent tmpl ≠ 0 →
             (rank (Parent tmpl) < rank m)%nat) →
  (rank (GetCorpseLocation_GetMapId player) < fuel)%nat →
  is_Some (PlayerCannotEnter w st fuel mapid player loginCheck).
Proof.
  intros Hrank Hfuel. unfold PlayerCannotEnter.
  destruct (corpse_walk_ranked w rank mapid Hrank fuel _ Hfuel) as [c Hc].
  rewrite Hc. simpl. repeat case_match; by eexists.
Qed.

Lemma PlayerCannotEnter_returns_witness :
  is_Some (PlayerCannotEnter sample_world sample_maps 2 33 (ghost 34) false).
Proof.
  apply (PlayerCannotEnter_returns sample_world
           (λ m, if m =? 34 then 1%nat else 0%nat) sample_maps 2 33 (ghost 34) false).
  - intros m tmpl. simpl.
    destruct (Z.eqb_spec m 0) as [->|]; [by intros [= <-]|].
    destruct (Z.eqb_spec m 34) as [->|]; [intros [= <-]; simpl; lia|].
    destruct (Z.eqb_spec m 33) as [->|]; [by intros [= <-]|done].
  - simpl. lia.
Defined.

Lemma corpse_walk_cycle w (on_cycle : Z → Prop) mapid :
  (∀ m, on_cycle m →
        m ≠ mapid ∧
        ∃ tmpl, GetInstanceTemplate w m = Some tmpl ∧ Parent tmpl ≠ 0 ∧
                on_cycle (Parent tmpl)) →
  ∀ fuel start, on_cycle start → corpse_walk w fuel mapid start = None.
Proof.
  intros Hcyc. induction fuel as [|fuel IH]; intros start Hs; [done|].
  destruct (Hcyc start Hs) as (Hne & tmpl & Ht & Hp & Hnext). simpl.
  destruct (Z.eqb_spec start mapid); [done|]. rewrite Ht.
  destruct (Z.eqb_spec (Parent tmpl) 0); [done|]. by apply IH.
Qed.

(** X13: when the parent links lead from the corpse's map into a cycle that
    misses the target, the loop over the parents never ends: for a dead
    player with a corpse there, an evaluation that arrives at the block on
    dead players returns nothing, however many rounds it is given. *)
Theorem corpse_cycle_never_returns w (on_cycle : Z → Prop) st mapid player
    loginCheck entry :
  (∀ m, on_cycle m →
        m ≠ mapid ∧
        ∃ tmpl, GetInstanceTemplate w m = Some tmpl ∧ Parent tmpl ≠ 0 ∧
                on_cycle (Parent tmpl)) →
  on_cycle (GetCorpseLocation_GetMapId player) →
  reaches_corpse_check w mapid player entry →
  IsAlive player = false → HasCorpse player = true →
  ∀ fuel, PlayerCannotEnter w st fuel mapid player loginCheck = None.
Proof.
  intros Hcyc Hstart Hreach Halive Hcorpse fuel.
  rewrite (PlayerCannotEnter_at_corpse_check _ _ _ _ _ _ _ Hreach).
  rewrite Halive, Hcorpse. simpl.
  by rewrite (corpse_walk_cycle w on_cycle mapid Hcyc fuel _ Hstart).
Qed.

Lemma corpse_cycle_never_returns_witness :
  PlayerCannotEnter looping_world sample_maps 1000 7 (ghost 5) false = None.
Proof.
  refine (corpse_cycle_never_returns looping_world (λ m, m = 5) sample_maps 7
            (ghost 5) false (dungeon_entry 7) _ _ _ _ _ 1000%nat).
  - intros m ->. split; [lia|]. exists (Build_InstanceTemplate 5).
    split; [reflexivity|]. split; [simpl; lia|reflexivity].
  - reflexivity.
  - unfold reaches_corpse_check. split; [reflexivity|]. split; [reflexivity|].
    split; [by eexists|]. split; [by eexists|]. done.
  - reflexivity.
  - reflexivity.
Defined.

End AdmissionMore.

(** * Further properties of the update pass *)

Module UpdateMore.
Import Maps UpdateFacts.

Lemma sum_list_app l1 l2 : sum_list (l1 ++ l2) = sum_list l1 + sum_list l2.
Proof. unfold sum_list. induction l1 as [|x l1 IH]; simpl; lia. Qed.

Lemma sum_list_zero (l : list Z) : Forall (λ x, x = 0) l → sum_list l = 0.
Proof. unfold sum_list. induction 1; simpl; lia. Qed.

(** A list with distinct keys hands the time to the key once. *)
Lemma sum_once (l : list (Z * addr)) id map t_diff :
  NoDup l.*1 → (id, map) ∈ l →
  sum_list ((λ kv, if kv.1 =? id then t_diff else 0) <$> l) = t_diff.
Proof.
  induction l as [|[k a] l IH]; intros Hnd Hin.
  { by apply elem_of_nil in Hin. }
  rewrite fmap_cons in Hnd. apply NoDup_cons in Hnd as [Hk Hnd].
  rewrite fmap_cons.
  change (sum_list (?x :: ?l')) with (x + sum_list l'). cbn [fst].
  apply elem_of_cons in Hin as [[= <- <-]|Hin].
  - rewrite Z.eqb_refl, sum_list_zero; [lia|].
    apply Forall_fmap, Forall_forall. intros [k' a'] Hin'. simpl.
    destruct (Z.eqb_spec k' id) as [->|]; [|done].
    destruct Hk. apply list_elem_of_fmap. by exists (id, a').
  - destruct (Z.eqb_spec k id) as [->|].
    + destruct Hk. apply list_elem_of_fmap. by exists (id, map).
    + rewrite IH by done. lia.
Qed.

Lemma pass_primary_time activated t_diff (m : gmap Z addr) id map :
  m !! id = Some map →
  sum_list (primary_time id <$> pass_events activated t_diff (map_to_list m))
  = t_diff.
Proof.
  intros Hm. unfold pass_events. rewrite !fmap_app, !sum_list_app.
  rewrite <- !list_fmap_compose.
  assert (sum_list (primary_time id <$> (if activated then [UpdaterWait] else []))
          = 0) as ->.
  { apply sum_list_zero. destruct activated; repeat constructor. }
  assert (sum_list (primary_time id ∘ (λ kv : Z * addr,
                      MapDelayedUpdate kv.1 kv.2 t_diff) <$> map_to_list m)
          = 0) as ->.
  { apply sum_list_zero, Forall_fmap, Forall_forall. by intros [??] _. }
  rewrite !Z.add_0_r.
  transitivity (sum_list ((λ kv : Z * addr, if kv.1 =? id then t_diff else 0)
                            <$> map_to_list m)).
  - f_equal. apply list_fmap_ext. intros i [k a] _. simpl.
    by destruct activated.
  - apply (sum_once _ id map); [apply NoDup_fst_map_to_list|].
    by apply elem_of_map_to_list.
Qed.

Lemma pass_delayed_time activated t_diff (m : gmap Z addr) id map :
  m !! id = Some map →
  sum_list (delayed_time id <$> pass_events activated t_diff (map_to_list m))
  = t_diff.
Proof.
  intros Hm. unfold pass_events. rewrite !fmap_app, !sum_list_app.
  rewrite <- !list_fmap_compose.
  assert (sum_list (delayed_time id <$> (if activated then [UpdaterWait] else []))
          = 0) as ->.
  { apply sum_list_zero. destruct activated; repeat constructor. }
  assert (sum_list (delayed_time id ∘ (λ kv : Z * addr,
                      if activated then ScheduleUpdate kv.1 kv.2 t_diff
                      else MapUpdate kv.1 kv.2 t_diff) <$> map_to_list m)
          = 0) as ->.
  { apply sum_list_zero, Forall_fmap, Forall_forall. intros [??] _. simpl.
    by destruct activated. }
  rewrite !Z.add_0_l.
  transitivity (sum_list ((λ kv : Z * addr, if kv.1 =? id then t_diff else 0)
                            <$> map_to_list m)).
  - f_equal.
  - apply (sum_once _ id map); [apply NoDup_fst_map_to_list|].
    by apply elem_of_map_to_list.
Qed.

(** X14: no elapsed time is lost or counted twice.  Over any run of
    [Update] calls, the times handed to the primary updates of a registered
    map add up, together with what is left in the accumulator, to the
    accumulator at the start plus all the elapsed times passed in; the same
    holds for its delayed updates.  (The total stays within 32 bits.) *)
Theorem elapsed_time_conserved diffs :
  ∀ st id map,
  i_maps st !! id = Some map →
  Forall (λ d, 0 ≤ d) diffs →
  0 ≤ IntervalTimer._current (i_timer st) →
  IntervalTimer._current (i_timer st) + sum_list diffs ≤ UINT32_MAX →
  let r := Updates diffs st in
  sum_list (primary_time id <$> r.2) + IntervalTimer._current (i_timer r.1)
    = IntervalTimer._current (i_timer st) + sum_list diffs ∧
  sum_list (delayed_time id <$> r.2) + IntervalTimer._current (i_timer r.1)
    = IntervalTimer._current (i_timer st) + sum_list diffs.
Proof.
  induction diffs as [|d ds IH]; intros st id map Hm Hpos Hc Hmax; cbn zeta.
  { simpl. unfold sum_list. simpl. lia. }
  apply Forall_cons in Hpos as [Hd Hpos].
  assert (0 ≤ sum_list ds) as Hds.
  { clear -Hpos. unfold sum_list. induction Hpos; simpl; lia. }
  change (sum_list (d :: ds)) with (d + sum_list ds) in *.
  cbn [Updates]. cbn zeta. cbn [fst snd].
  destruct (decide (IntervalTimer._interval (i_timer st)
                    ≤ IntervalTimer._current (i_timer st) + d)) as [Hp|Hp].
  - rewrite (Update_passed d st) by lia. cbn [fst snd].
    set (st1 := set_i_timer _ st).
    destruct (IH st1 id map) as [IH1 IH2]; [done|done|simpl; lia|simpl; lia|].
    rewrite !fmap_app, !sum_list_app.
    rewrite (pass_primary_time _ _ _ id map Hm).
    rewrite (pass_delayed_time _ _ _ id map Hm).
    rewrite InstanceIdsFacts.to_uint32_small by lia.
    change (IntervalTimer._current (i_timer st1)) with 0 in IH1, IH2.
    cbn zeta in IH1, IH2. lia.
  - rewrite (Update_accumulates d st) by lia. cbn [fst snd].
    set (st1 := set_i_timer _ st).
    destruct (IH st1 id map) as [IH1 IH2]; [done|done|simpl; lia|simpl; lia|].
    change (IntervalTimer._current (i_timer st1))
      with (IntervalTimer._current (i_timer st) + d) in IH1, IH2.
    cbn zeta in IH1, IH2. simpl. lia.
Qed.

Lemma elapsed_time_conserved_witness :
  let st := Samples.terrain_maps_created in
  let r := Updates [40; 70; 30; 90] st in
  sum_list (primary_time 2 <$> r.2) + IntervalTimer._current (i_timer r.1)
    = IntervalTimer._current (i_timer st) + sum_list [40; 70; 30; 90] ∧
  sum_list (delayed_time 2 <$> r.2) + IntervalTimer._current (i_timer r.1)
    = IntervalTimer._current (i_timer st) + sum_list [40; 70; 30; 90].
Proof.
  apply (elapsed_time_conserved [40; 70; 30; 90] Samples.terrain_maps_created
           2 1%nat).
  - reflexivity.
  - repeat first [apply Forall_nil | apply Forall_cons_2]; first [exact I | lia].
  - simpl. lia.
  - unfold UINT32_MAX. simpl. lia.
Defined.



End UpdateMore.

(** * Further properties of the registry of base maps *)

Module MapsMore.
Import Maps MapsFacts Samples.

Lemma extends_refl st : extends st st.
Proof. by repeat split. Qed.

Lemma extends_trans st1 st2 st3 :
  extends st1 st2 → extends st2 st3 → extends st1 st3.
Proof.
  intros (Ho & Hl & Hr & Hd & Ht & Hu) (Ho' & Hl' & Hr' & Hd' & Ht' & Hu').
  repeat split; try congruence; try lia.
  - intros i Hi. rewrite Ho' by lia. by apply Ho.
  - intros x Hx. by apply Hr', Hr.
Qed.

(** What a creation step with the properties [ok] does inside the loop over
    the children: the object [a] gains one child per entry of the list and
    is otherwise as before, every other old object is untouched, every new
    object is built for a definition of the store. *)
Lemma attach_children_grows w (create : MapEntry → t → option (addr * t)) a :
  (∀ e s c s', create e s = Some (c, s') →
     extends s s' ∧ (length (objects s) < length (objects s'))%nat ∧
     ∀ i o, (length (objects s) ≤ i)%nat → objects s' !! i = Some o →
            ∃ e', (e' = e ∨ ∃ k, sMapStore w !! k = Some e') ∧ built_from e' o) →
  ∀ children s s' o,
  objects s !! a = Some o →
  attach_children w create a children s = Some s' →
  (∀ i, (i < length (objects s))%nat → i ≠ a → objects s' !! i = objects s !! i) ∧
  (length (objects s) ≤ length (objects s'))%nat ∧
  (∀ x, is_Some (i_maps s !! x) → is_Some (i_maps s' !! x)) ∧
  i_gridCleanUpDelay s' = i_gridCleanUpDelay s ∧
  i_timer s' = i_timer s ∧
  m_updater_activated s' = m_updater_activated s ∧
  (∃ cs, length cs = length children ∧
         objects s' !! a =
           Some (Build_Map (GetId o) (map_Instanceable o) (m_gridExpiry o)
                   (m_childTerrainMaps o ++ cs) (gridMapFilesDiscovered o)
                   (respawnTimesLoaded o) (corpseDataLoaded o))) ∧
  ∀ i o', (length (objects s) ≤ i)%nat → objects s' !! i = Some o' →
          ∃ k e', sMapStore w !! k = Some e' ∧ built_from e' o'.
Proof.
  intros Hcreate. induction children as [|c cs IH]; intros s s' o Ho; simpl.
  { intros [= <-]. repeat split; try done.
    - exists []. rewrite app_nil_r. by destruct o.
    - intros i o' Hi Hlook. apply lookup_lt_Some in Hlook. lia. }
  unfold AssertEntry. destruct (sMapStore w !! c) as [e|] eqn:He; [|done].
  simpl. destruct (create e s) as [[child s1]|] eqn:Hc; [|done]. simpl.
  destruct (Hcreate _ _ _ _ Hc)
    as ((Ho1 & Hl1 & Hr1 & Hd1 & Ht1 & Hu1) & Hlt1 & Hnew1).
  assert (a < length (objects s))%nat as Ha by (by eapply lookup_lt_Some).
  set (s2 := AddChildTerrainMap a child s1).
  assert (objects s2 !! a =
            Some (Build_Map (GetId o) (map_Instanceable o) (m_gridExpiry o)
                    (m_childTerrainMaps o ++ [child]) (gridMapFilesDiscovered o)
                    (respawnTimesLoaded o) (corpseDataLoaded o))) as Ho2.
  { unfold s2. simpl_st. rewrite list_lookup_alter.
    destruct (decide _); [|done]. rewrite Ho1 by done. by rewrite Ho. }
  intros Hrest.
  destruct (IH s2 s' _ Ho2 Hrest)
    as (Hold & Hlen & Hreg & Hd & Ht & Hu & (cs' & Hcs' & Hoa) & Hnew).
  assert (length (objects s2) = length (objects s1)) as Hl2
    by (unfold s2; simpl_st; apply length_alter).
  assert (∀ i, i ≠ a → objects s2 !! i = objects s1 !! i) as Hne2.
  { intros i Hi. unfold s2. simpl_st. by apply list_lookup_alter_ne. }
  split; [|split; [|split; [|split; [|split; [|split; [|split]]]]]].
  - intros i Hi Hia. rewrite Hold by (done || lia).
    rewrite Hne2 by done. by apply Ho1.
  - lia.
  - intros x Hx. apply Hreg. unfold s2. simpl_st. by apply Hr1.
  - rewrite Hd. unfold s2. by simpl_st.
  - rewrite Ht. unfold s2. by simpl_st.
  - rewrite Hu. unfold s2. by simpl_st.
  - exists (child :: cs'). split; [simpl; lia|].
    rewrite Hoa. simpl. by rewrite <- app_assoc.
  - intros i o' Hi Hlook.
    destruct (decide (length (objects s2) ≤ i)%nat) as [Hge|Hlt].
    { by apply (Hnew i o'). }
    rewrite Hold in Hlook by lia. rewrite Hne2 in Hlook by lia.
    destruct (Hnew1 i o' Hi Hlook) as (e' & [->|[k Hk]] & Hb); eauto.
Qed.

(** What one creation step does, whatever the data. *)
Lemma CreateBaseMap_i_grows w fuel :
  ∀ e st a st', CreateBaseMap_i w fuel e st = Some (a, st') →
  a = length (objects st) ∧
  extends st st' ∧ (length (objects st) < length (objects st'))%nat ∧
  (∃ o, objects st' !! a = Some o ∧ built_from e o ∧
        m_gridExpiry o = i_gridCleanUpDelay st ∧
        length (m_childTerrainMaps o)
        = length (children_of (_parentMapData st) (ID e))) ∧
  ∀ i o, (length (objects st) ≤ i)%nat → objects st' !! i = Some o →
         ∃ e', (e' = e ∨ ∃ k, sMapStore w !! k = Some e') ∧ built_from e' o.
Proof.
  induction fuel as [|fuel IH]; intros e st a st'; [done|].
  cbn [CreateBaseMap_i]. simpl_st.
  set (obj := Build_Map (ID e) (Instanceable e) (i_gridCleanUpDelay st) []
                true false false).
  match goal with
  | |- context [attach_children _ _ _ _ ?s] => set (st3 := s)
  end.
  destruct (attach_children w (CreateBaseMap_i w fuel) (length (objects st))
              (children_of (_parentMapData st) (ID e)) st3) as [s4|] eqn:Hat;
    [|done].
  cbn [mbind option_bind]. intros [= <- <-]. split; [done|].
  assert (objects st3 !! length (objects st) = Some obj) as Ho3.
  { unfold st3. simpl_st. rewrite lookup_app_r by done.
    by rewrite Nat.sub_diag. }
  assert (length (objects st3) = S (length (objects st))) as Hl3.
  { unfold st3. simpl_st. rewrite length_app. simpl. lia. }
  destruct (attach_children_grows w (CreateBaseMap_i w fuel) (length (objects st)))
    with (children := children_of (_parentMapData st) (ID e))
         (s := st3) (s' := s4) (o := obj)
    as (Hold & Hlen & Hreg & Hd & Ht & Hu & (cs & Hcs & Hoa) & Hnew);
    [|done|done|].
  { intros e' s c s' Hc. destruct (IH _ _ _ _ Hc) as (_ & ? & ? & _ & ?).
    done. }
  set (a := length (objects st)) in *.
  pose (final := if Instanceable e then s4
                 else LoadCorpseData a (LoadRespawnTimes a s4)).
  fold final.
  assert (i_maps final = i_maps s4 ∧
          i_gridCleanUpDelay final = i_gridCleanUpDelay s4 ∧
          i_timer final = i_timer s4 ∧
          m_updater_activated final = m_updater_activated s4 ∧
          length (objects final) = length (objects s4) ∧
          (∀ i, i ≠ a → objects final !! i = objects s4 !! i) ∧
          ∃ o, objects final !! a = Some o ∧ built_from e o ∧
               m_gridExpiry o = i_gridCleanUpDelay st ∧
               m_childTerrainMaps o = cs)
    as (Hfm & Hfd & Hft & Hfu & Hfl & Hfo & Hfa).
  { unfold final. destruct (Instanceable e) eqn:Hinst.
    - repeat split; try done. eexists. split; [exact Hoa|].
      unfold built_from; simpl. by rewrite Hinst.
    - simpl_st. rewrite !length_alter. repeat split; try done.
      + intros i Hi. by rewrite !list_lookup_alter_ne.
      + eexists. split.
        * rewrite list_lookup_alter. destruct (decide _); [|done].
          rewrite list_lookup_alter. destruct (decide _); [|done].
          rewrite Hoa. simpl. done.
        * unfold built_from; simpl. by rewrite Hinst. }
  split; [|split; [|split]].
  - repeat split.
    + intros i Hi. rewrite Hfo by lia. rewrite Hold by lia.
      unfold st3. simpl_st. by rewrite lookup_app_l.
    + lia.
    + intros x Hx. rewrite Hfm. apply Hreg. unfold st3. simpl_st.
      destruct (decide (ID e = x)) as [->|Hne].
      * rewrite lookup_insert_eq. by eexists.
      * by rewrite lookup_insert_ne.
    + rewrite Hfd, Hd. unfold st3. by simpl_st.
    + rewrite Hft, Ht. unfold st3. by simpl_st.
    + rewrite Hfu, Hu. unfold st3. by simpl_st.
  - lia.
  - destruct Hfa as (o & Ho & Hb & Hg & Hch). exists o.
    split; [done|]. split; [done|]. split; [done|]. by rewrite Hch.
  - intros i o Hi Hlook. destruct (decide (i = a)) as [->|Hia].
    + destruct Hfa as (o' & Ho' & Hb & _). exists e. split; [by left|].
      congruence.
    + rewrite Hfo in Hlook by done.
      destruct (Hnew i o) as (k & e' & Hk & Hb); [lia|done|].
      exists e'. split; [right; by exists k|done].
Qed.

Lemma CreateBaseMap_grows w fuel :
  ∀ id st a st', CreateBaseMap w fuel id st = Some (a, st') →
  extends st st' ∧
  ∀ i o, (length (objects st) ≤ i)%nat → objects st' !! i = Some o →
         ∃ k e, sMapStore w !! k = Some e ∧ built_from e o.
Proof.
  assert (∀ st, extends st st ∧
    ∀ i o, (length (objects st) ≤ i)%nat → objects st !! i = Some o →
           ∃ k e, sMapStore w !! k = Some e ∧ built_from e o) as Hsame.
  { intros st. split; [apply extends_refl|].
    intros i o Hi Hlook. apply lookup_lt_Some in Hlook. lia. }
  induction fuel as [|fuel IH]; intros id st a st'; simpl.
  { destruct (FindBaseMap id st); [|done]. intros [= <- <-]. apply Hsame. }
  destruct (FindBaseMap id st); [intros [= <- <-]; apply Hsame|].
  unfold AssertEntry. destruct (sMapStore w !! id) as [e|] eqn:He; [|done].
  simpl. destruct (bool_decide _).
  - destruct (CreateBaseMap w fuel _ st) as [[m st1]|] eqn:Hc; [|done]. simpl.
    destruct (FindBaseMap id st1); [|done]. simpl. intros [= <- <-].
    by apply (IH _ _ _ _ Hc).
  - intros Hc. destruct (CreateBaseMap_i_grows _ _ _ _ _ _ Hc)
      as (_ & Hext & _ & _ & Hnew).
    split; [done|]. intros i o Hi Hlook.
    destruct (Hnew i o Hi Hlook) as (e' & [->|[k Hk]] & Hb); eauto.
Qed.

(** X16: whatever the data, a call of [CreateBaseMap] that returns has only
    added: the objects that existed are unchanged, every map that was
    registered still is, and the interval timer, the updater and the
    clean-up delay are as before. *)
Theorem creation_only_adds w fuel id st a st' :
  CreateBaseMap w fuel id st = Some (a, st') → extends st st'.
Proof. intros H. by apply CreateBaseMap_grows in H as [? _]. Qed.

Lemma creation_only_adds_witness :
  extends terrain_maps terrain_maps_created.
Proof.
  apply (creation_only_adds terrain_world 5 2 terrain_maps 1%nat
           terrain_maps_created).
  vm_compute. reflexivity.
Defined.

(** The objects of a manager stay of the kind of their definitions. *)
Lemma created_objects_kept w fuel id st a st' :
  all_built w st → CreateBaseMap w fuel id st = Some (a, st') →
  all_built w st'.
Proof.
  intros Hall Hc. apply CreateBaseMap_grows in Hc as [(Hold & _) Hnew].
  intros i o Hlook.
  destruct (decide (i < length (objects st))%nat) as [Hlt|Hge].
  - rewrite Hold in Hlook by done. by apply (Hall i o).
  - apply (Hnew i o); [lia|done].
Qed.

(** X17: every object a call of [CreateBaseMap] adds is built for a
    definition of the store: it is instance-capable exactly when that
    definition is instanceable, its terrain files are discovered, and its
    respawn times and corpses are loaded exactly when the definition is not
    instanceable.  So a manager all of whose objects are of this kind stays
    so. *)
Theorem created_objects_match_definitions w fuel id st a st' :
  CreateBaseMap w fuel id st = Some (a, st') →
  (∀ i o, (length (objects st) ≤ i)%nat → objects st' !! i = Some o →
          ∃ k e, sMapStore w !! k = Some e ∧ built_from e o) ∧
  (all_built w st → all_built w st').
Proof.
  intros Hc. split.
  - by apply CreateBaseMap_grows in Hc as [_ ?].
  - intros Hall. by apply (created_objects_kept w fuel id st a st').
Qed.

Lemma created_objects_match_definitions_witness :
  (∀ i o, (length (objects terrain_maps) ≤ i)%nat →
          objects terrain_maps_created !! i = Some o →
          ∃ k e, sMapStore terrain_world !! k = Some e ∧ built_from e o) ∧
  (all_built terrain_world terrain_maps →
   all_built terrain_world terrain_maps_created).
Proof.
  apply (created_objects_match_definitions terrain_world 5 2 terrain_maps
           1%nat terrain_maps_created).
  vm_compute. reflexivity.
Defined.

(** X18: the object [CreateBaseMap_i] returns has the first free handle, is
    built for the definition passed, takes the clean-up delay of the
    manager as its grid expiry, and has one child terrain map for every
    child the parent-map data lists for it. *)
Theorem created_root_object w fuel e st a st' :
  CreateBaseMap_i w fuel e st = Some (a, st') →
  a = length (objects st) ∧
  ∃ o, objects st' !! a = Some o ∧ built_from e o ∧
       m_gridExpiry o = i_gridCleanUpDelay st ∧
       length (m_childTerrainMaps o)
       = length (children_of (_parentMapData st) (ID e)).
Proof.
  intros H. by apply CreateBaseMap_i_grows in H as (? & _ & _ & ? & _).
Qed.

Lemma created_root_object_witness :
  0%nat = length (objects terrain_maps) ∧
  ∃ o, objects terrain_maps_created !! 0%nat = Some o ∧
       built_from (terrain_entry 1 (-1) false) o ∧
       m_gridExpiry o = i_gridCleanUpDelay terrain_maps ∧
       length (m_childTerrainMaps o)
       = length (children_of (_parentMapData terrain_maps)
                   (ID (terrain_entry 1 (-1) false))).
Proof.
  apply (created_root_object terrain_world 3 (terrain_entry 1 (-1) false)
           terrain_maps 0%nat terrain_maps_created).
  vm_compute. reflexivity.
Defined.

(** ** Failing and diverging creations *)

(** X19: when the parent a definition declares is registered and the map
    itself is not (the parent was created while the parent-map data did not
    list the map), [CreateBaseMap] fails its assertion, whatever the fuel:
    it never creates the child on its own. *)
Theorem missing_child_aborts w st D eD P :
  i_maps st !! D = None →
  sMapStore w !! D = Some eD → declared_parent eD = Some P →
  is_Some (i_maps st !! P) →
  ∀ fuel, CreateBaseMap w fuel D st = None.
Proof.
  intros HD He Hp [aP HP] fuel. destruct fuel as [|fuel].
  - simpl. unfold FindBaseMap. by rewrite HD.
  - rewrite (CreateBaseMap_child _ _ _ _ _ _ HD He Hp).
    rewrite (CreateBaseMap_found _ _ _ _ _ HP). cbn [mbind option_bind].
    unfold FindBaseMap. by rewrite HD.
Qed.

Lemma missing_child_aborts_witness :
  CreateBaseMap terrain_world 1000 2 terrain_maps_unlisted = None.
Proof.
  refine (missing_child_aborts terrain_world terrain_maps_unlisted 2
            (terrain_entry 2 1 false) 1 _ _ _ _ 1000%nat).
  - reflexivity.
  - reflexivity.
  - reflexivity.
  - by exists 0%nat.
Defined.

(** X20: on definitions whose declared parents run in a circle, none of
    them registered, [CreateBaseMap] returns for no amount of fuel: the
    code recurses without end. *)
Theorem parent_cycle_never_returns w (circle : Z → Prop) st :
  (∀ x, circle x →
        i_maps st !! x = None ∧
        ∃ e p, sMapStore w !! x = Some e ∧ declared_parent e = Some p ∧
               circle p) →
  ∀ fuel id, circle id → CreateBaseMap w fuel id st = None.
Proof.
  intros Hcircle. induction fuel as [|fuel IH]; intros id Hid;
    destruct (Hcircle id Hid) as (Hnone & e & p & He & Hp & Hcp).
  - simpl. unfold FindBaseMap. by rewrite Hnone.
  - rewrite (CreateBaseMap_child _ _ _ _ _ _ Hnone He Hp).
    by rewrite (IH p Hcp).
Qed.

Lemma parent_cycle_never_returns_witness :
  CreateBaseMap cyclic_world 1000 5 terrain_maps = None.
Proof.
  refine (parent_cycle_never_returns cyclic_world (λ x, x = 5 ∨ x = 6)
            terrain_maps _ 1000%nat 5 _).
  - intros x [->| ->].
    + split; [reflexivity|].
      exists (terrain_entry 5 6 false), 6. repeat split. by right.
    + split; [reflexivity|].
      exists (terrain_entry 6 5 false), 5. repeat split. by left.
  - by left.
Defined.

(** ** Trees are created as a whole *)

Section Trees.
Context (w : World) (kids : Z → list Z) (level : Z → nat) (height : nat).
Context (Hwf : wf_data w kids level height).

Lemma registered_above st r x :
  registry_inv w kids st → below kids r x →
  is_Some (i_maps st !! x) → is_Some (i_maps st !! r).
Proof.
  intros Hinv. revert x. apply (rtc_ind_r (λ x, is_Some (i_maps st !! x) →
                                               is_Some (i_maps st !! r)));
    [done|].
  intros y x _ Hxy IH Hx. apply IH.
  destruct (wf_kids _ _ _ _ Hwf y x Hxy) as (e & He & Hp).
  by apply (inv_parent _ _ _ Hinv x e y).
Qed.

Lemma registered_below st r x :
  registry_inv w kids st → below kids r x →
  is_Some (i_maps st !! r) → is_Some (i_maps st !! x).
Proof.
  intros Hinv Hb Hr. revert x Hb.
  apply (rtc_ind_r (λ x, is_Some (i_maps st !! x))); [done|].
  intros y x _ Hxy IH.
  destruct (registered_kid w kids level height Hwf st y x Hinv IH Hxy)
    as (_ & ax & _ & Hax & _).
  by eexists.
Qed.

(** The object registered for a map is of the kind of its definition. *)
Lemma registered_kind st id a e :
  registry_inv w kids st → all_built w st →
  i_maps st !! id = Some a → sMapStore w !! id = Some e →
  Map_Instanceable a st = Instanceable e.
Proof.
  intros Hinv Hall Ha He.
  destruct (inv_registered _ _ _ Hinv id) as (a' & o & Ha' & _ & Ho & Hid & _);
    [by eexists|].
  assert (a' = a) as -> by congruence.
  destruct (Hall a o Ho) as (k & e' & Hk & Hgid & Hkind & _).
  pose proof (wf_ID _ _ _ _ Hwf k e' Hk) as Hke.
  assert (k = id) as -> by congruence.
  assert (e' = e) as -> by congruence.
  unfold Map_Instanceable. by rewrite Ho.
Qed.

(** X21: on well-formed data and a registry in its invariant,
    [CreateBaseMap] returns for every defined map, keeps the invariant and
    the handles registered before, and leaves the whole tree of the map
    registered: the map, its ancestors, and everything below them. *)
Theorem CreateBaseMap_registers_whole_tree st id e fuel :
  registry_inv w kids st → sMapStore w !! id = Some e →
  (2 * height + 2 ≤ fuel)%nat →
  ∃ a st', CreateBaseMap w fuel id st = Some (a, st') ∧
           registry_inv w kids st' ∧
           i_maps st' !! id = Some a ∧
           (∀ x ax, i_maps st !! x = Some ax → i_maps st' !! x = Some ax) ∧
           ∀ r x, below kids r id → below kids r x →
                  is_Some (i_maps st' !! x).
Proof.
  intros Hinv He Hfuel. pose proof (wf_height _ _ _ _ Hwf id).
  destruct (CreateBaseMap_spec w kids level height Hwf fuel id e st Hinv He
              ltac:(lia)) as (a & st' & Hc & Hinv' & Ha & Hpers).
  exists a, st'. repeat (split; [done|]).
  intros r x Hr Hx. apply (registered_below st' r x Hinv' Hx).
  apply (registered_above st' r id Hinv' Hr). by eexists.
Qed.

(** X22: creating and then finding.  For a defined map, [CreateMap] returns
    the base map when the definition is not instanceable and what
    [CreateInstanceForPlayer] of the base map returns when it is;
    afterwards [FindBaseNonInstanceMap] and [FindMap] see the base map
    exactly in the first case, [FindMap] only for the instance id 0, and
    [FindMap] asks the base map for its instance in the second case. *)
Theorem create_then_find st id e fuel player loginInstanceId :
  registry_inv w kids st → all_built w st → sMapStore w !! id = Some e →
  (2 * height + 2 ≤ fuel)%nat →
  ∃ m st',
    CreateMap w fuel id player loginInstanceId st
      = Some (if Instanceable e
              then CreateInstanceForPlayer w m id player loginInstanceId
              else Some m, st') ∧
    FindBaseMap id st' = Some m ∧
    FindBaseNonInstanceMap id st' = (if Instanceable e then None else Some m) ∧
    (∀ instanceId,
       FindMap w id instanceId st'
       = if Instanceable e then FindInstanceMap w m instanceId
         else if instanceId =? 0 then Some m else None) ∧
    registry_inv w kids st' ∧ all_built w st'.
Proof.
  intros Hinv Hall He Hfuel. pose proof (wf_height _ _ _ _ Hwf id).
  destruct (CreateBaseMap_spec w kids level height Hwf fuel id e st Hinv He
              ltac:(lia)) as (a & st' & Hc & Hinv' & Ha & _).
  pose proof (created_objects_kept w fuel id st a st' Hall Hc) as Hall'.
  pose proof (registered_kind st' id a e Hinv' Hall' Ha He) as Hkind.
  exists a, st'. unfold CreateMap, FindBaseNonInstanceMap, FindMap, FindBaseMap.
  rewrite Hc, Ha. cbn [mbind option_bind]. rewrite Hkind.
  destruct (Instanceable e); done.
Qed.

End Trees.

Lemma CreateBaseMap_registers_whole_tree_witness :
  ∃ a st', CreateBaseMap terrain_world 5 2 terrain_maps = Some (a, st') ∧
           registry_inv terrain_world (children_of terrain_mapData) st' ∧
           i_maps st' !! 2 = Some a ∧
           (∀ x ax, i_maps terrain_maps !! x = Some ax →
                    i_maps st' !! x = Some ax) ∧
           ∀ r x, below (children_of terrain_mapData) r 2 →
                  below (children_of terrain_mapData) r x →
                  is_Some (i_maps st' !! x).
Proof.
  apply (CreateBaseMap_registers_whole_tree terrain_world
           (children_of terrain_mapData) terrain_level 1 terrain_wf
           terrain_maps 2 (terrain_entry 2 1 false) 5).
  - by apply registry_inv_init.
  - reflexivity.
  - lia.
Defined.

Lemma create_then_find_witness :
  ∃ m st',
    CreateMap terrain_world 5 3 (ghost 0) 7 terrain_maps
      = Some (if Instanceable (terrain_entry 3 (-1) true)
              then CreateInstanceForPlayer terrain_world m 3 (ghost 0) 7
              else Some m, st') ∧
    FindBaseMap 3 st' = Some m ∧
    FindBaseNonInstanceMap 3 st'
      = (if Instanceable (terrain_entry 3 (-1) true) then None else Some m) ∧
    (∀ instanceId,
       FindMap terrain_world 3 instanceId st'
       = if Instanceable (terrain_entry 3 (-1) true)
         then FindInstanceMap terrain_world m instanceId
         else if instanceId =? 0 then Some m else None) ∧
    registry_inv terrain_world (children_of terrain_mapData) st' ∧
    all_built terrain_world st'.
Proof.
  apply (create_then_find terrain_world (children_of terrain_mapData)
           terrain_level 1 terrain_wf terrain_maps 3
           (terrain_entry 3 (-1) true) 5 (ghost 0) 7).
  - by apply registry_inv_init.
  - intros i o H. vm_compute in H. destruct i; discriminate.
  - reflexivity.
  - lia.
Defined.

(** ** From start-up to a populated registry *)

(** X23: start-up followed by any calls of [CreateBaseMap] on defined maps.
    Every call returns; in the end the registry is in its invariant, every
    map asked for is registered, and the object of every registered map is
    instance-capable exactly when its definition is instanceable. *)
Theorem startup_then_creations w mapData level height gridClean mapUpdate
    num_threads ids fuel :
  wf_data w (children_of mapData) level height →
  Forall (λ id, is_Some (sMapStore w !! id)) ids →
  (2 * height + 2 ≤ fuel)%nat →
  ∃ maps st',
    CreateBaseMaps w fuel ids
      (InitializeParentMapData mapData
         (Initialize num_threads (constructed gridClean mapUpdate)))
      = Some (maps, st') ∧
    length maps = length ids ∧
    registry_inv w (children_of mapData) st' ∧
    (∀ id, id ∈ ids → is_Some (i_maps st' !! id)) ∧
    ∀ id a e, i_maps st' !! id = Some a → sMapStore w !! id = Some e →
              Map_Instanceable a st' = Instanceable e.
Proof.
  intros Hwf Hids Hfuel.
  set (st0 := InitializeParentMapData mapData _).
  assert (registry_inv w (children_of mapData) st0) as Hinv.
  { apply registry_inv_init. unfold Initialize, constructed.
    by destruct (0 <? num_threads). }
  assert (all_built w st0) as Hall.
  { intros i o. unfold st0, InitializeParentMapData, Initialize, constructed.
    destruct (0 <? num_threads); simpl; by rewrite lookup_nil. }
  clearbody st0.
  cut (∃ maps st',
         CreateBaseMaps w fuel ids st0 = Some (maps, st') ∧
         length maps = length ids ∧
         registry_inv w (children_of mapData) st' ∧ all_built w st' ∧
         ∀ id, id ∈ ids ∨ is_Some (i_maps st0 !! id) →
               is_Some (i_maps st' !! id)).
  { intros (maps & st' & Hc & Hlen & Hinv' & Hall' & Hreg).
    exists maps, st'. repeat (split; [done|]). split.
    - intros id Hid. apply Hreg. by left.
    - intros id a e. by apply (registered_kind w _ level height Hwf). }
  revert st0 Hinv Hall. induction Hids as [|id ids [e He] _ IH];
    intros st0 Hinv Hall.
  { exists [], st0. repeat (split; [done|]). by intros id [?%elem_of_nil|?]. }
  pose proof (wf_height _ _ _ _ Hwf id).
  destruct (CreateBaseMap_spec w _ level height Hwf fuel id e st0 Hinv He
              ltac:(lia)) as (a & st1 & Hc & Hinv1 & Ha & Hpers).
  pose proof (created_objects_kept w fuel id st0 a st1 Hall Hc) as Hall1.
  destruct (IH st1 Hinv1 Hall1) as (maps & st' & Hcs & Hlen & Hinv' & Hall' & Hreg).
  exists (a :: maps), st'. cbn [CreateBaseMaps]. rewrite Hc.
  cbn [mbind option_bind]. rewrite Hcs. cbn [mbind option_bind].
  split; [done|]. split; [simpl; lia|]. repeat (split; [done|]).
  intros x [Hx|[ax Hx]].
  - apply elem_of_cons in Hx as [->|Hx]; apply Hreg.
    + right. by eexists.
    + by left.
  - apply Hreg. right. exists ax. by apply Hpers.
Qed.

Lemma startup_then_creations_witness :
  ∃ maps st',
    CreateBaseMaps terrain_world 4 [2; 3; 1]
      (InitializeParentMapData terrain_mapData
         (Initialize 2 (constructed 0 100)))
      = Some (maps, st') ∧
    length maps = length [2; 3; 1] ∧
    registry_inv terrain_world (children_of terrain_mapData) st' ∧
    (∀ id, id ∈ [2; 3; 1] → is_Some (i_maps st' !! id)) ∧
    ∀ id a e, i_maps st' !! id = Some a →
              sMapStore terrain_world !! id = Some e →
              Map_Instanceable a st' = Instanceable e.
Proof.
  apply (startup_then_creations terrain_world terrain_mapData terrain_level 1
           0 100 2 [2; 3; 1] 4).
  - exact terrain_wf.
  - repeat constructor; by eexists.
  - lia.
Defined.

(** ** Teardown *)

(** X24: after [UnloadAll] nothing is left to find, to count or to update:
    every lookup fails, both counters are 0, and a later [Update] makes no
    call at all, not even to the updater, which is off. *)
Theorem UnloadAll_leaves_nothing w ins st :
  let st' := (UnloadAll st).1 in
  (∀ id, FindBaseMap id st' = None) ∧
  (∀ id, FindBaseNonInstanceMap id st' = None) ∧
  (∀ id instanceId, FindMap w id instanceId st' = None) ∧
  GetNumInstances ins st' = 0 ∧
  GetNumPlayersInInstances ins st' = 0 ∧
  m_updater_activated st' = false ∧
  ∀ diff, (Update diff st').2 = [].
Proof.
  cbn zeta. unfold UnloadAll, FindBaseNonInstanceMap, FindMap, FindBaseMap,
    GetNumInstances, GetNumPlayersInInstances. cbn [fst]. simpl_st.
  repeat split; try (intros; by rewrite lookup_empty);
    try by rewrite map_to_list_empty.
  intros diff. unfold Update. simpl_st.
  destruct (negb _); [done|]. cbn [snd]. unfold pass_events.
  by rewrite map_to_list_empty.
Qed.

(** X25: [UnloadAll] unloads and deletes exactly the registered maps, each
    once, and no map is unloaded after a map was deleted. *)
Theorem UnloadAll_unloads_before_deleting st :
  let calls := (UnloadAll st).2 in
  NoDup calls ∧
  (∀ id map, MapUnloadAll id map ∈ calls ↔ i_maps st !! id = Some map) ∧
  (∀ id map, MapDelete id map ∈ calls ↔ i_maps st !! id = Some map) ∧
  ∀ i j id map id' map',
    calls !! i = Some (MapDelete id map) →
    calls !! j = Some (MapUnloadAll id' map') → (j < i)%nat.
Proof.
  cbn zeta. unfold UnloadAll. cbn [snd].
  set (maps := map_to_list (i_maps st)).
  set (unloads := (λ kv : Z * addr, MapUnloadAll kv.1 kv.2) <$> maps).
  set (deletes := (λ kv : Z * addr, MapDelete kv.1 kv.2) <$> maps).
  set (rest := (if m_updater_activated st then [UpdaterDeactivate] else [])
               ++ [DeleteStateMachine]).
  assert (∀ id map, MapUnloadAll id map ∈ unloads ↔ i_maps st !! id = Some map)
    as Hun.
  { intros id map. unfold unloads. rewrite list_elem_of_fmap. split.
    - intros ([k a] & [= -> ->] & Hin). by apply elem_of_map_to_list in Hin.
    - intros H. exists (id, map). split; [done|]. by apply elem_of_map_to_list. }
  assert (∀ id map, MapDelete id map ∈ deletes ↔ i_maps st !! id = Some map)
    as Hdel.
  { intros id map. unfold deletes. rewrite list_elem_of_fmap. split.
    - intros ([k a] & [= -> ->] & Hin). by apply elem_of_map_to_list in Hin.
    - intros H. exists (id, map). split; [done|]. by apply elem_of_map_to_list. }
  assert (∀ ev, ev ∈ unloads → ∃ id map, ev = MapUnloadAll id map) as Hu.
  { intros ev ([k a] & -> & _)%list_elem_of_fmap. by eexists _, _. }
  assert (∀ ev, ev ∈ deletes → ∃ id map, ev = MapDelete id map) as Hd.
  { intros ev ([k a] & -> & _)%list_elem_of_fmap. by eexists _, _. }
  assert (∀ ev, ev ∈ rest → ev = UpdaterDeactivate ∨ ev = DeleteStateMachine)
    as Hr.
  { intros ev. unfold rest. destruct (m_updater_activated st); simpl.
    - rewrite elem_of_cons, list_elem_of_singleton. tauto.
    - rewrite list_elem_of_singleton. tauto. }
  assert (NoDup rest) as Hndr.
  { unfold rest. destruct (m_updater_activated st); simpl.
    - apply NoDup_cons. split; [|apply NoDup_singleton].
      rewrite list_elem_of_singleton. done.
    - apply NoDup_singleton. }
  split; [|split; [|split]].
  - apply NoDup_app. split; [|split].
    + apply NoDup_fmap_2; [|apply NoDup_map_to_list].
      intros [k a] [k' a'] [= -> ->]. done.
    + intros ev Hev Hev'. destruct (Hu ev Hev) as (id & map & ->).
      apply elem_of_app in Hev' as [Hev'|Hev'].
      * by destruct (Hd _ Hev') as (? & ? & ?).
      * by destruct (Hr _ Hev').
    + apply NoDup_app. split; [|split; [|done]].
      * apply NoDup_fmap_2; [|apply NoDup_map_to_list].
        intros [k a] [k' a'] [= -> ->]. done.
      * intros ev Hev Hev'. destruct (Hd ev Hev) as (id & map & ->).
        by destruct (Hr _ Hev').
  - intros id map. rewrite !elem_of_app, Hun. split; [|by left].
    intros [H|[H|H]]; [done| |].
    + by destruct (Hd _ H) as (? & ? & ?).
    + by destruct (Hr _ H).
  - intros id map. rewrite !elem_of_app, Hdel. split; [|by right; left].
    intros [H|[H|H]]; [|done|].
    + by destruct (Hu _ H) as (? & ? & ?).
    + by destruct (Hr _ H).
  - intros i j id map id' map' Hi Hj.
    assert (j < length unloads)%nat as Hjl.
    { destruct (decide (j < length unloads)%nat); [done|].
      rewrite lookup_app_r in Hj by lia.
      apply list_elem_of_lookup_2, elem_of_app in Hj as [Hj|Hj].
      - by destruct (Hd _ Hj) as (? & ? & ?).
      - by destruct (Hr _ Hj). }
    destruct (decide (i < length unloads)%nat) as [Hil|]; [|lia].
    rewrite lookup_app_l in Hi by done.
    apply list_elem_of_lookup_2 in Hi.
    by destruct (Hu _ Hi) as (? & ? & ?).
Qed.

(** ** The counters *)

Lemma to_uint32_idemp z : to_uint32 (to_uint32 z) = to_uint32 z.
Proof. unfold to_uint32. by rewrite Z.mod_mod. Qed.

Lemma to_uint32_add_l a b : to_uint32 (to_uint32 a + b) = to_uint32 (a + b).
Proof. unfold to_uint32. by rewrite Zplus_mod_idemp_l. Qed.

Lemma sum_list_ones (l : list addr) :
  sum_list ((λ _, 1) <$> l) = Z.of_nat (length l).
Proof.
  unfold sum_list. induction l as [|x l IH]; [done|].
  rewrite fmap_cons. cbn [foldr length]. rewrite Nat2Z.inj_succ. lia.
Qed.

(** Both counters are one loop scheme: an instance that is a dungeon adds
    [weight] to the counter. *)
Lemma counter_closed_form ins st (weight : addr → Z) :
  foldl (λ ret (itr : Z * addr),
           if negb (Map_Instanceable itr.2 st) then ret
           else foldl (λ ret (mitr : Z * addr),
                         if instance_IsDungeon ins mitr.2
                         then to_uint32 (ret + weight mitr.2)
                         else ret)
                      ret (GetInstancedMaps ins itr.2))
        0 (map_to_list (i_maps st))
  = to_uint32 (sum_list (weight <$> dungeon_instances ins st)).
Proof.
  unfold dungeon_instances.
  assert (∀ (l : list (Z * addr)) acc, to_uint32 acc = acc →
    foldl (λ ret (mitr : Z * addr),
             if instance_IsDungeon ins mitr.2
             then to_uint32 (ret + weight mitr.2) else ret) acc l
    = to_uint32 (acc + sum_list (weight <$>
                   filter (λ i, instance_IsDungeon ins i = true) l.*2)))
    as Hinner.
  { induction l as [|[k a] l IH]; intros acc Hacc; simpl.
    { by rewrite Z.add_0_r. }
    rewrite filter_cons. simpl. destruct (decide _) as [Hd|Hd].
    - rewrite Hd. rewrite IH by apply to_uint32_idemp.
      rewrite to_uint32_add_l. f_equal. rewrite fmap_cons.
      unfold sum_list. cbn [foldr]. symmetry. apply Z.add_assoc.
    - destruct (instance_IsDungeon ins a); [done|]. by apply IH. }
  generalize (map_to_list (i_maps st)). intros l.
  cut (∀ acc, to_uint32 acc = acc →
    foldl (λ ret (itr : Z * addr),
             if negb (Map_Instanceable itr.2 st) then ret
             else foldl (λ ret (mitr : Z * addr),
                           if instance_IsDungeon ins mitr.2
                           then to_uint32 (ret + weight mitr.2)
                           else ret)
                        ret (GetInstancedMaps ins itr.2)) acc l
    = to_uint32 (acc + sum_list (weight <$> mjoin
        ((λ itr : Z * addr,
            if negb (Map_Instanceable itr.2 st) then []
            else filter (λ i, instance_IsDungeon ins i = true)
                   ((GetInstancedMaps ins itr.2).*2)) <$> l)))).
  { intros H. by rewrite (H 0). }
  induction l as [|[k a] l IH]; intros acc Hacc; simpl.
  { by rewrite Z.add_0_r. }
  destruct (negb (Map_Instanceable a st)); simpl.
  - by apply IH.
  - rewrite Hinner by done. rewrite IH by apply to_uint32_idemp.
    rewrite to_uint32_add_l, fmap_app, UpdateMore.sum_list_app. f_equal.
    symmetry. apply Z.add_assoc.
Qed.

(** X26: the counters in closed form.  [GetNumInstances] is the number of
    dungeon instances of the registered instance-capable maps, and
    [GetNumPlayersInInstances] the sum of their player counts, both as a
    [uint32], that is modulo 2^32; instances of maps that are not
    instance-capable, and instances that are not dungeons, count for
    nothing. *)
Theorem counters_closed_form ins st :
  GetNumInstances ins st
    = to_uint32 (Z.of_nat (length (dungeon_instances ins st))) ∧
  GetNumPlayersInInstances ins st
    = to_uint32 (sum_list (GetPlayers_getSize ins <$> dungeon_instances ins st)).
Proof.
  split.
  - rewrite <- sum_list_ones. apply (counter_closed_form ins st (λ _, 1)).
  - apply (counter_closed_form ins st (GetPlayers_getSize ins)).
Qed.

(** The two counters on the sample: two dungeon instances, five players. *)
Example counters_sample :
  dungeon_instances sample_instances terrain_maps_all = [100%nat; 102%nat] ∧
  GetNumInstances sample_instances terrain_maps_all = 2 ∧
  GetNumPlayersInInstances sample_instances terrain_maps_all = 5.
Proof. repeat split; vm_compute; reflexivity. Qed.

End MapsMore.
